(** * Light ray toy: the ray-tracing core of [src/App.tsx]

    The development follows the source file top to bottom: vector algebra
    (lines 24-36), physics (37-53), geometric primitives (55-75), the
    bounce loop [traceRay] (77-161), the palette (163-164) and the scene
    query driver inside [App] (202-224).

    Numbers.  A JavaScript [number] is an IEEE-754 binary64 value, so the
    tracer is stated over Rocq's primitive floats, whose [+ - * / sqrt abs]
    and comparisons are the IEEE operations ([NaN] compares false with
    everything).  The vector algebra and the two physics formulas are
    written once, over a small interface [Scalar], so that the same
    definitions can also be read in exact real arithmetic, which is where
    the algebraic laws of the spec (unit length, idempotence) live. *)

From Stdlib Require Import List String Bool Arith Lia.
From Stdlib Require Import ZArith.
From Stdlib Require Import Floats.
From Stdlib Require Import Reals Lra.
Import ListNotations.

Set Warnings "-inexact-float".

(* ================================================================== *)
(** ** Scalars *)

(** The arithmetic the vector algebra and the physics use. *)
Class Scalar (T : Type) : Type := {
  s_zero : T;
  s_one  : T;
  s_two  : T;
  s_add  : T -> T -> T;
  s_sub  : T -> T -> T;
  s_mul  : T -> T -> T;
  s_div  : T -> T -> T;
  s_opp  : T -> T;
  s_sqrt : T -> T;
  s_ltb  : T -> T -> bool
}.

Declare Scope scalar_scope.
Delimit Scope scalar_scope with sc.
Notation "a + b" := (s_add a b) : scalar_scope.
Notation "a - b" := (s_sub a b) : scalar_scope.
Notation "a * b" := (s_mul a b) : scalar_scope.
Notation "a / b" := (s_div a b) : scalar_scope.
Notation "- a" := (s_opp a) : scalar_scope.
Notation "a <? b" := (s_ltb a b) : scalar_scope.
Notation "a >? b" := (s_ltb b a) : scalar_scope.

(** IEEE-754 binary64: what the program runs on. *)
#[export] Instance float_scalar : Scalar float := {|
  s_zero := 0%float;
  s_one  := 1%float;
  s_two  := 2%float;
  s_add  := PrimFloat.add;
  s_sub  := PrimFloat.sub;
  s_mul  := PrimFloat.mul;
  s_div  := PrimFloat.div;
  s_opp  := PrimFloat.opp;
  s_sqrt := PrimFloat.sqrt;
  s_ltb  := PrimFloat.ltb
|}.

(** [a < b] on the reals, as a boolean. *)
Definition Rltb (a b : R) : bool := if Rlt_dec a b then true else false.

(** Exact real arithmetic: the reading under which the spec states its
    algebraic laws. *)
#[export] Instance real_scalar : Scalar R := {|
  s_zero := 0%R;
  s_one  := 1%R;
  s_two  := 2%R;
  s_add  := Rplus;
  s_sub  := Rminus;
  s_mul  := Rmult;
  s_div  := Rdiv;
  s_opp  := Ropp;
  s_sqrt := R_sqrt.sqrt;
  s_ltb  := Rltb
|}.

(* ================================================================== *)
(** ** Vector algebra (lines 4-7, 24-31) and physics (lines 37-53) *)

Record Vector2 (T : Type) : Type := vec { x : T; y : T }.
Arguments vec {T} x y.
Arguments x {T} v.
Arguments y {T} v.

Section VectorAlgebra.
Context {T : Type} {S : Scalar T}.
Local Open Scope scalar_scope.

Definition add (v1 v2 : Vector2 T) : Vector2 T :=
  vec (x v1 + x v2) (y v1 + y v2).

Definition sub (v1 v2 : Vector2 T) : Vector2 T :=
  vec (x v1 - x v2) (y v1 - y v2).

Definition scale (s : T) (v : Vector2 T) : Vector2 T :=
  vec (s * x v) (s * y v).

Definition dot (v1 v2 : Vector2 T) : T :=
  x v1 * x v2 + y v1 * y v2.

(** [Math.sqrt(v.x * v.x + v.y * v.y)], the [len] of [normalize]. *)
Definition norm (v : Vector2 T) : T :=
  s_sqrt (x v * x v + y v * y v).

Definition normalize (v : Vector2 T) : Vector2 T :=
  let len := norm v in
  if len >? s_zero then vec (x v / len) (y v / len) else vec s_zero s_zero.

Definition reflect (incident normal : Vector2 T) : Vector2 T :=
  let normalizedNormal := normalize normal in
  let proj := scale (dot incident normalizedNormal) normalizedNormal in
  sub incident (scale s_two proj).

(** [null] is [None]. *)
Definition refract (incident normal : Vector2 T) (eta : T)
  : option (Vector2 T) :=
  let ni := normalize incident in
  let nn := normalize normal in
  let cosTheta := - dot ni nn in
  if cosTheta <? s_zero then None else
  let sin2Theta := s_one - cosTheta * cosTheta in
  let sin2Phi := eta * eta * sin2Theta in
  if sin2Phi >? s_one then None else
  let cosPhi := s_sqrt (s_one - sin2Phi) in
  Some (add (scale eta ni) (scale (- eta * cosTheta + cosPhi) nn)).

End VectorAlgebra.

(* ================================================================== *)
(** ** Scene data (lines 16-22, 163-164) *)

(** The string literal type ['prism' | 'mirror' | 'light' | 'target']. *)
Inductive ObjType : Type := Prism | Mirror | Light | Target.

Definition ObjType_eqb (a b : ObjType) : bool :=
  match a, b with
  | Prism, Prism | Mirror, Mirror | Light, Light | Target, Target => true
  | _, _ => false
  end.

Record OpticObject : Type := {
  id : string;
  type : ObjType;
  position : Vector2 float;
  rotation : float;
  size : float
}.

(** A trace segment.  [color] is [COLORS[colorIndex]], which is
    [undefined] ([None]) when the index is outside the palette. *)
Record Segment : Type := {
  start : Vector2 float;
  seg_end : Vector2 float;
  color : option string
}.

Definition COLORS : list string :=
  ["red"; "orange"; "yellow"; "green"; "blue"; "indigo"; "violet"]%string.

Definition REFRACTION_INDICES : list float :=
  [1.331; 1.337; 1.343; 1.352; 1.369; 1.381; 1.393]%float.

(* ================================================================== *)
(** ** Geometric primitives (lines 32-36, 55-75) *)

(** [Math.sqrt] and [Math.abs] are the IEEE operations. *)
Definition Math_sqrt : float -> float := PrimFloat.sqrt.
Definition Math_abs : float -> float := PrimFloat.abs.

Section Tracer.

(** [Math.cos] and [Math.sin] are the host's; ECMAScript leaves their
    values implementation-approximated, so they are parameters. *)
Variables Math_cos Math_sin : float -> float.

Local Open Scope float_scope.

Definition rotate (v : Vector2 float) (angle : float) : Vector2 float :=
  let cos := Math_cos angle in
  let sin := Math_sin angle in
  vec (x v * cos - y v * sin) (x v * sin + y v * cos).

Record MirrorSegment : Type := {
  seg_p1 : Vector2 float;
  seg_p2 : Vector2 float;
  seg_normal : Vector2 float
}.

Definition getMirrorSegment (obj : OpticObject) : MirrorSegment :=
  let half := size obj / 2 in
  let localP1 := vec (- half) 0 in
  let localP2 := vec half 0 in
  let localNormal := vec 0 1 in
  {| seg_p1 := add (position obj) (rotate localP1 (rotation obj));
     seg_p2 := add (position obj) (rotate localP2 (rotation obj));
     seg_normal := rotate localNormal (rotation obj) |}.

Record Intersection : Type := {
  point : option (Vector2 float);
  int_t : float;
  int_u : float
}.

Definition noIntersection : Intersection :=
  {| point := None; int_t := -1; int_u := -1 |}.

(** The determinant, [t] and [u] of [lineIntersect], as the source
    writes them. *)
Definition li_denom (dir p1 p2 : Vector2 float) : float :=
  (x dir * (y p2 - y p1)) - (y dir * (x p2 - x p1)).

Definition li_t (origin dir p1 p2 : Vector2 float) : float :=
  ((x origin - x p1) * (y p2 - y p1) - (y origin - y p1) * (x p2 - x p1))
  / li_denom dir p1 p2.

Definition li_u (origin dir p1 p2 : Vector2 float) : float :=
  - ((x dir * (y origin - y p1)) - (y dir * (x origin - x p1)))
  / li_denom dir p1 p2.

Definition lineIntersect (origin dir p1 p2 : Vector2 float) : Intersection :=
  let denom := li_denom dir p1 p2 in
  if Math_abs denom <? 1e-6 then noIntersection else
  let t := li_t origin dir p1 p2 in
  let u := li_u origin dir p1 p2 in
  if (0 <=? t) && (0 <=? u) && (u <=? 1)
  then {| point := Some (add origin (scale t dir)); int_t := t; int_u := u |}
  else noIntersection.


(* ================================================================== *)
(** ** The bounce loop (lines 77-161) *)

Definition maxBounces : nat := 10.
Definition maxLength : float := 1000.

Inductive HitType : Type := hitMirror | hitPrism.

(** [hitNormal], [hitPoint] and [hitType] are assigned together, at the
    two places that also assign [minT]; [hit = None] is the three of them
    being [null]. *)
Record Hit : Type := {
  hitNormal : Vector2 float;
  hitPoint : Vector2 float;
  hitType : HitType
}.

Record Nearest : Type := {
  minT : float;
  hit : option Hit
}.

Definition noHit : Nearest := {| minT := infinity; hit := None |}.

(** Line 92: the filter of the mirror pass. *)
Definition isMirror (o : OpticObject) : bool :=
  ObjType_eqb (type o) Mirror
  && negb (String.eqb (id o) "light1")
  && negb (String.eqb (id o) "target1").

(** Line 105: the filter of the prism pass. *)
Definition isPrism (o : OpticObject) : bool :=
  ObjType_eqb (type o) Prism.

(** Lines 94-101: the body of the loop over the mirrors. *)
Definition mirrorStep (origin dir : Vector2 float) (near : Nearest)
  (obj : OpticObject) : Nearest :=
  let seg := getMirrorSegment obj in
  let inter := lineIntersect origin dir (seg_p1 seg) (seg_p2 seg) in
  match point inter with
  | Some pt =>
      if (0.01 <? int_t inter) && (int_t inter <? minT near)
         && (dot dir (seg_normal seg) <? 0)
      then {| minT := int_t inter;
              hit := Some {| hitNormal := seg_normal seg;
                             hitPoint := pt;
                             hitType := hitMirror |} |}
      else near
  | None => near
  end.

(** Lines 107-111: the quadratic of the prism disc. *)
Definition prism_b (origin dir : Vector2 float) (obj : OpticObject) : float :=
  2 * dot (sub (position obj) origin) dir.

(** [x ** 2] is read as [x * x]. *)
Definition prism_c (origin : Vector2 float) (obj : OpticObject) : float :=
  let oc := sub (position obj) origin in
  dot oc oc - (size obj / 2) * (size obj / 2).

Definition prism_disc (origin dir : Vector2 float) (obj : OpticObject)
  : float :=
  let a := 1 in
  let b := prism_b origin dir obj in
  let c := prism_c origin obj in
  b * b - 4 * a * c.

Definition smallerRoot (origin dir : Vector2 float) (obj : OpticObject)
  : float :=
  let a := 1 in
  (- prism_b origin dir obj - Math_sqrt (prism_disc origin dir obj)) / (2 * a).

Definition largerRoot (origin dir : Vector2 float) (obj : OpticObject)
  : float :=
  let a := 1 in
  (- prism_b origin dir obj + Math_sqrt (prism_disc origin dir obj)) / (2 * a).

(** Lines 113-116: the root the loop body goes on with. *)
Definition prismRoot (origin dir : Vector2 float) (obj : OpticObject)
  : float :=
  let t := smallerRoot origin dir obj in
  if t <? 0.01 then largerRoot origin dir obj else t.

(** Lines 107-126: the body of the loop over the prisms. *)
Definition prismStep (origin dir : Vector2 float) (near : Nearest)
  (obj : OpticObject) : Nearest :=
  if prism_disc origin dir obj <? 0 then near else
  let t := prismRoot origin dir obj in
  if (0.01 <? t) && (t <? minT near) then
    let hitP := add origin (scale t dir) in
    let radialNormal := normalize (sub hitP (position obj)) in
    if dot dir radialNormal <? 0
    then {| minT := t;
            hit := Some {| hitNormal := radialNormal;
                           hitPoint := hitP;
                           hitType := hitPrism |} |}
    else near
  else near.

(** Lines 86-127: the nearest hit of one iteration. *)
Definition findHit (objects : list OpticObject) (origin dir : Vector2 float)
  : Nearest :=
  let mirrors := filter isMirror objects in
  let near := fold_left (mirrorStep origin dir) mirrors noHit in
  let prisms := filter isPrism objects in
  fold_left (prismStep origin dir) prisms near.

(** The variables the loop carries. *)
Record TraceState : Type := {
  origin : Vector2 float;
  dir : Vector2 float;
  totalLength : float;
  segments : list Segment
}.

(** [COLORS[colorIndex]]; an index outside the palette gives
    [undefined]. *)
Definition paletteColor (colorIndex : nat) : option string :=
  nth_error COLORS colorIndex.

(** [REFRACTION_INDICES[colorIndex]]; outside the table it is
    [undefined], and [1 / undefined] is [NaN]. *)
Definition refractionIndex (colorIndex : nat) : float :=
  nth colorIndex REFRACTION_INDICES nan.

(** Lines 133-146: direction and origin after a hit. *)
Definition bounce (colorIndex : nat) (dir : Vector2 float) (h : Hit)
  : Vector2 float * Vector2 float :=
  let n := normalize (hitNormal h) in
  match hitType h with
  | hitMirror =>
      (normalize (reflect dir n), add (hitPoint h) (scale 0.1 n))
  | hitPrism =>
      let eta := 1 / refractionIndex colorIndex in
      let dir' :=
        match refract dir (hitNormal h) eta with
        | Some refracted => normalize refracted
        | None => normalize (reflect dir n)
        end in
      (dir', add (hitPoint h) (scale 0.05 n))
  end.

(** What one iteration leaves: the loop goes on, or it is left by one of
    the two [break]s. *)
Inductive StepResult : Type :=
| Continue (st : TraceState)
| Break (st : TraceState).

(** Lines 148-155: the branch without a hit. *)
Definition escape (colorIndex : nat) (st : TraceState) : TraceState :=
  let remaining := maxLength - totalLength st in
  if 0 <? remaining then
    let end_ := add (origin st) (scale remaining (dir st)) in
    {| origin := origin st; dir := dir st; totalLength := totalLength st;
       segments := segments st ++
         [{| start := origin st; seg_end := end_;
             color := paletteColor colorIndex |}] |}
  else st.

(** Lines 129-147 and 157: the branch with a hit. *)
Definition advance (colorIndex : nat) (st : TraceState) (near : Nearest)
  (h : Hit) : StepResult :=
  let end_ := add (origin st) (scale (minT near) (dir st)) in
  let '(dir', origin') := bounce colorIndex (dir st) h in
  let st' :=
    {| origin := origin'; dir := dir';
       totalLength := totalLength st + minT near;
       segments := segments st ++
         [{| start := origin st; seg_end := end_;
             color := paletteColor colorIndex |}] |} in
  if maxLength <? totalLength st' then Break st' else Continue st'.

(** Lines 86-157: one iteration of the [for] loop. *)
Definition bounceStep (objects : list OpticObject) (colorIndex : nat)
  (st : TraceState) : StepResult :=
  let near := findHit objects (origin st) (dir st) in
  match hit near with
  | Some h =>
      if minT near <? infinity then advance colorIndex st near h
      else Break (escape colorIndex st)
  | None => Break (escape colorIndex st)
  end.

(** The [for] loop with [fuel] iterations left; the result is the number
    of iterations that ran and the state they left. *)
Fixpoint bounceLoop (fuel : nat) (objects : list OpticObject)
  (colorIndex : nat) (st : TraceState) : nat * TraceState :=
  match fuel with
  | O => (O, st)
  | S fuel' =>
      match bounceStep objects colorIndex st with
      | Continue st' =>
          let '(k, final) := bounceLoop fuel' objects colorIndex st' in
          (S k, final)
      | Break st' => (1%nat, st')
      end
  end.

Definition initialState (initialOrigin initialDir : Vector2 float)
  : TraceState :=
  {| origin := initialOrigin; dir := normalize initialDir;
     totalLength := 0; segments := [] |}.

Definition traceRay (initialOrigin initialDir : Vector2 float)
  (colorIndex : nat) (objects : list OpticObject) : list Segment :=
  segments (snd (bounceLoop maxBounces objects colorIndex
                   (initialState initialOrigin initialDir))).

(** The number of loop iterations [traceRay] runs. *)
Definition traceIterations (initialOrigin initialDir : Vector2 float)
  (colorIndex : nat) (objects : list OpticObject) : nat :=
  fst (bounceLoop maxBounces objects colorIndex
         (initialState initialOrigin initialDir)).

(* ================================================================== *)
(** ** Scene query driver (lines 202-224) *)

Definition isLight (o : OpticObject) : bool := ObjType_eqb (type o) Light.
Definition isTarget (o : OpticObject) : bool := ObjType_eqb (type o) Target.

Definition computeRays (objects : list OpticObject) : list Segment :=
  flat_map
    (fun light =>
       flat_map
         (fun index => traceRay (position light) (vec 1 0) index objects)
         (seq 0 (List.length COLORS)))
    (filter isLight objects).

(** Lines 217-221: the test of one segment against the target;
    [x ** 2] is read as [x * x]. *)
Definition reaches (target : OpticObject) (seg : Segment) : bool :=
  let dx := x (seg_end seg) - x (position target) in
  let dy := y (seg_end seg) - y (position target) in
  dx * dx + dy * dy <? (size target / 2 + 5) * (size target / 2 + 5).

(** Lines 213-224: the effect that depends on [objects]; [solved] is the
    flag before it runs. *)
Definition solvedEffect (objects : list OpticObject) (solved : bool) : bool :=
  let segs := computeRays objects in
  match find isTarget objects with
  | Some target => existsb (reaches target) segs
  | None => solved
  end.

End Tracer.

(** The App component's state that the core touches (lines 169-177). *)
Record AppState : Type := {
  objects : list OpticObject;
  solved : bool
}.

(** [setObjects(newObjects)]: the state is replaced and, [objects] being
    a dependency of [computeRays] and of the effect of lines 213-224, the
    effect runs on the new scene. *)
Definition setObjects (Math_cos Math_sin : float -> float)
  (newObjects : list OpticObject) (st : AppState) : AppState :=
  {| objects := newObjects;
     solved := solvedEffect Math_cos Math_sin newObjects (solved st) |}.

(* ================================================================== *)
(** ** Names of the spec *)

Section SpecNames.
Context {T : Type} {S : Scalar T}.
Local Open Scope scalar_scope.

(** [cosTheta = -dot(d^, n^)] of spec 4.3, step 2. *)
Definition cosTheta (d n : Vector2 T) : T :=
  - dot (normalize d) (normalize n).

(** [sin2Phi = eta^2 * (1 - cosTheta^2)] of spec 4.3, step 3. *)
Definition sin2Phi (d n : Vector2 T) (eta : T) : T :=
  eta * eta * (s_one - cosTheta d n * cosTheta d n).


End SpecNames.

(* ================================================================== *)
(** ** Runs of the loop *)

Section Runs.
Variables Math_cos Math_sin : float -> float.
Local Open Scope float_scope.

Definition stateOf (r : StepResult) : TraceState :=
  match r with Continue st | Break st => st end.

(** The obstacles the two passes of [findHit] look at. *)
Definition participates (o : OpticObject) : bool := isMirror o || isPrism o.

(** The hit [prismStep] records when it accepts the root [t]. *)
Definition prismHit (origin dir : Vector2 float) (obj : OpticObject)
  (t : float) : Nearest :=
  let hitP := add origin (scale t dir) in
  {| minT := t;
     hit := Some {| hitNormal := normalize (sub hitP (position obj));
                    hitPoint := hitP;
                    hitType := hitPrism |} |}.

(** The outward radial normal at the point the root [t] gives. *)
Definition radialNormal (origin dir : Vector2 float) (obj : OpticObject)
  (t : float) : Vector2 float :=
  normalize (sub (add origin (scale t dir)) (position obj)).


(** Whenever the three hit variables are set, [minT < Infinity]. *)
Definition finiteHit (near : Nearest) : Prop :=
  hit near <> None -> (minT near <? infinity) = true.

(** The segment pushed at line 131, up to the hit point. *)
Definition hitSegment (colorIndex : nat) (st : TraceState) (near : Nearest)
  : Segment :=
  {| start := origin st;
     seg_end := add (origin st) (scale (minT near) (dir st));
     color := paletteColor colorIndex |}.

(** The segment pushed at line 152, over the remaining budget. *)
Definition finalSegment (colorIndex : nat) (st : TraceState) : Segment :=
  {| start := origin st;
     seg_end := add (origin st) (scale (maxLength - totalLength st) (dir st));
     color := paletteColor colorIndex |}.

(** The ray never escapes during [n] bounces: each of them finds a hit,
    whatever length has been travelled. *)
Fixpoint neverEscapes (n : nat) (objects : list OpticObject)
  (colorIndex : nat) (st : TraceState) : bool :=
  match n with
  | O => true
  | S n' =>
      let near := findHit Math_cos Math_sin objects (origin st) (dir st) in
      match hit near with
      | Some h =>
          (minT near <? infinity)
          && neverEscapes n' objects colorIndex
               (stateOf (advance colorIndex st near h))
      | None => false
      end
  end.

End Runs.

(* ================================================================== *)
(** ** Example scenes *)

Module Examples.
Local Open Scope float_scope.

(** [Math.PI]. *)
Definition Math_PI : float := 3.141592653589793.

(** The host's [Math.cos] and [Math.sin] at the two angles the example
    scenes use: [cos(0) = 1] and [sin(0) = 0] (fixed by ECMAScript), and
    the binary64 results at [Math.PI].  No example rotates by another
    angle. *)
Definition hostCos (a : float) : float :=
  if a =? 0 then 1 else if a =? Math_PI then -1 else nan.

Definition hostSin (a : float) : float :=
  if a =? 0 then a
  else if a =? Math_PI then 1.2246467991473532e-16 else nan.

(** The scene the App starts with (lines 169-172). *)
Definition light1 : OpticObject :=
  {| id := "light1"; type := Light; position := vec 100 300;
     rotation := 0; size := 20 |}.

Definition target1 : OpticObject :=
  {| id := "target1"; type := Target; position := vec 600 100;
     rotation := 0; size := 30 |}.

Definition puzzle1 : list OpticObject := [light1; target1].

(** A mirror of the kind [addObject] makes (size 40), facing up
    (rotation 0) or facing down (rotation pi). *)
Definition mirrorUp (px py : float) : OpticObject :=
  {| id := "1700000000001"; type := Mirror; position := vec px py;
     rotation := 0; size := 40 |}.

Definition mirrorDown (px py : float) : OpticObject :=
  {| id := "1700000000002"; type := Mirror; position := vec px py;
     rotation := Math_PI; size := 40 |}.

(** Two mirrors that the source takes as hit in turn by the ray sent
    from the origin along [(0,-1)], about 100 units per bounce. *)
Definition smallRing : list OpticObject :=
  [mirrorUp 40 100; mirrorDown (-40) (-200)].

(** The same three times as far apart: about 300 units per bounce. *)
Definition largeRing : list OpticObject :=
  [mirrorUp 40 300; mirrorDown (-40) (-600)].


Definition down : Vector2 float := vec 0 (-1).
Definition zero2 : Vector2 float := vec 0 0.

(** A small prism disc of radius [2^-10] at the origin, and a ray origin
    whose smaller root is the threshold [0.01] itself. *)
Definition tinyPrism : OpticObject :=
  {| id := "1700000000003"; type := Prism; position := vec 0 0;
     rotation := 0; size := 0.001953125 |}.

Definition nearOrigin : Vector2 float := vec 0.0109765625 0.

(** A prism disc of radius 50 around a ray origin that is 30 units from
    its centre. *)
Definition bigPrism : OpticObject :=
  {| id := "1700000000004"; type := Prism; position := vec 30 0;
     rotation := 0; size := 100 |}.

(** The starting scene with the target moved onto the far end of the
    unobstructed ray. *)
Definition targetAtEnd : OpticObject :=
  {| id := "target1"; type := Target; position := vec 1100 300;
     rotation := 0; size := 30 |}.

Definition solvedScene : list OpticObject := [light1; targetAtEnd].

(** [Math.PI / 2], and the host's [Math.cos] and [Math.sin] at the quarter
    turns as well: [Math.cos(Math.PI / 2)] is [6.123233995736766e-17] and
    [Math.sin(Math.PI / 2)] is [1]. *)
Definition Math_PI_2 : float := 1.5707963267948966.

Definition boxCos (a : float) : float :=
  if (a =? Math_PI_2) || (a =? - Math_PI_2) then 6.123233995736766e-17
  else hostCos a.

Definition boxSin (a : float) : float :=
  if a =? Math_PI_2 then 1
  else if a =? - Math_PI_2 then -1 else hostSin a.

(** A mirror of length 100. *)
Definition wall (i : string) (px py rot : float) : OpticObject :=
  {| id := i; type := Mirror; position := vec px py;
     rotation := rot; size := 100 |}.

(** The four sides of a box, 100 by 100, around the light of the starting
    scene at [(100,300)]; each mirror's normal points into the box. *)
Definition rightWall : OpticObject := wall "1700000000011" 150 300 Math_PI_2.
Definition leftWall : OpticObject :=
  wall "1700000000012" 50 300 (- Math_PI_2).
Definition upperWall : OpticObject := wall "1700000000013" 100 250 0.
Definition lowerWall : OpticObject := wall "1700000000014" 100 350 Math_PI.

Definition closedBox : list OpticObject :=
  [light1; target1; rightWall; leftWall; upperWall; lowerWall].

(** A mirror from [(-100,320)] to [(-100,420)]: behind the light at
    [(100,300)] and off the line [y = 300] of its ray. *)
Definition mirrorBehind : OpticObject :=
  wall "1700000000015" (-100) 370 Math_PI_2.

Definition sceneWithMirrorBehind : list OpticObject :=
  [light1; target1; mirrorBehind].

End Examples.

(* ================================================================== *)
(** ** Candidates of one iteration *)

Section Candidates.
Variables Math_cos Math_sin : float -> float.
Local Open Scope float_scope.

(** The parameter at which the mirror [obj] can be hit from [origin]
    along [dir]: the tests of line 96 other than the comparison with the
    nearest hit so far. *)
Definition mirrorCandidate (origin dir : Vector2 float) (obj : OpticObject)
  : option float :=
  let seg := getMirrorSegment Math_cos Math_sin obj in
  let inter := lineIntersect origin dir (seg_p1 seg) (seg_p2 seg) in
  match point inter with
  | Some _ =>
      if (0.01 <? int_t inter) && (dot dir (seg_normal seg) <? 0)
      then Some (int_t inter) else None
  | None => None
  end.

(** The hit [mirrorStep] records when it accepts the parameter [t]. *)
Definition mirrorHit (origin dir : Vector2 float) (obj : OpticObject)
  (t : float) : Nearest :=
  {| minT := t;
     hit := Some {| hitNormal :=
                      seg_normal (getMirrorSegment Math_cos Math_sin obj);
                    hitPoint := add origin (scale t dir);
                    hitType := hitMirror |} |}.

(** The root at which the prism [obj] can be hit: the tests of lines 112,
    117 and 120 other than the comparison with the nearest hit so far. *)
Definition prismCandidate (origin dir : Vector2 float) (obj : OpticObject)
  : option float :=
  if prism_disc origin dir obj <? 0 then None else
  let t := prismRoot origin dir obj in
  if (0.01 <? t) && (dot dir (radialNormal origin dir obj t) <? 0)
  then Some t else None.

(** [obj] is looked at by one of the two passes and can be hit at [t]. *)
Definition candidateAt (origin dir : Vector2 float) (obj : OpticObject)
  (t : float) : Prop :=
  (isMirror obj = true /\ mirrorCandidate origin dir obj = Some t)
  \/ (isPrism obj = true /\ prismCandidate origin dir obj = Some t).

End Candidates.

(* ================================================================== *)
(** ** Shape of a trace *)

Section TraceShape.
Local Open Scope float_scope.



End TraceShape.

(* ================================================================== *)
(** ** Scene editing (lines 173-175, 191-200, 226-274) *)

(** What an edit of position or rotation keeps of an object. *)
Definition identity (o : OpticObject) : string * ObjType * float :=
  (id o, type o, size o).

(** The argument type ['prism' | 'mirror'] of [addObject]. *)
Inductive Addable : Type := AddPrism | AddMirror.

Definition addableType (ty : Addable) : ObjType :=
  match ty with AddPrism => Prism | AddMirror => Mirror end.

(** The state of the App that the mouse handlers read and write. *)
Record Ui : Type := {
  appState : AppState;
  dragging : option string;
  rotating : option string;
  mousePos : Vector2 float
}.

(** What [if (s)] lets through for a [string | null]: [null] and the
    empty string are falsy. *)
Definition selected (s : option string) : option string :=
  match s with
  | Some s => if String.eqb s "" then None else Some s
  | None => None
  end.

Section SceneEditing.
Variables Math_cos Math_sin : float -> float.

(** [Math.atan2] is the host's. *)
Variable Math_atan2 : float -> float -> float.

Local Open Scope float_scope.

(** Lines 192-198; [now] is [Date.now().toString()]. *)
Definition newObject (now : string) (ty : Addable) : OpticObject :=
  {| id := now; type := addableType ty; position := vec 300 300;
     rotation := 0; size := 40 |}.

(** Line 199. *)
Definition addObject (now : string) (ty : Addable) (st : AppState)
  : AppState :=
  setObjects Math_cos Math_sin (objects st ++ [newObject now ty]) st.

(** Line 227: [prev.map(obj => obj.id === id ? {...obj, position: pos}
    : obj)]. *)
Definition movedTo (i : string) (pos : Vector2 float)
  (objs : list OpticObject) : list OpticObject :=
  map (fun obj =>
         if String.eqb (id obj) i
         then {| id := id obj; type := type obj; position := pos;
                 rotation := rotation obj; size := size obj |}
         else obj) objs.

Definition updatePosition (i : string) (pos : Vector2 float) (st : AppState)
  : AppState :=
  setObjects Math_cos Math_sin (movedTo i pos (objects st)) st.

(** Line 266: [prev.map(o => o.id === rotating ? {...o, rotation: newRot}
    : o)]. *)
Definition rotatedTo (i : string) (newRot : float)
  (objs : list OpticObject) : list OpticObject :=
  map (fun o =>
         if String.eqb (id o) i
         then {| id := id o; type := type o; position := position o;
                 rotation := newRot; size := size o |}
         else o) objs.

(** Lines 239-240: the test of the loop of [handleMouseDown];
    [x ** 2] is read as [x * x]. *)
Definition inReach (mx my : float) (obj : OpticObject) : bool :=
  let dist :=
    Math_sqrt ((mx - x (position obj)) * (mx - x (position obj))
               + (my - y (position obj)) * (my - y (position obj))) in
  dist <? size obj / 2 + 20.

(** Lines 231-249, for a mounted canvas; [mx], [my] are the mouse
    coordinates relative to it.  The loop stops at the first object in
    reach. *)
Definition handleMouseDown (mx my : float) (shiftKey : bool) (ui : Ui) : Ui :=
  match find (inReach mx my) (objects (appState ui)) with
  | Some obj =>
      if shiftKey
      then {| appState := appState ui; dragging := dragging ui;
              rotating := Some (id obj); mousePos := vec mx my |}
      else {| appState := appState ui; dragging := Some (id obj);
              rotating := rotating ui; mousePos := vec mx my |}
  | None =>
      {| appState := appState ui; dragging := dragging ui;
         rotating := rotating ui; mousePos := vec mx my |}
  end.

(** Lines 251-269. *)
Definition handleMouseMove (mx my : float) (ui : Ui) : Ui :=
  let objs := objects (appState ui) in
  let appState' :=
    match selected (dragging ui) with
    | Some d => updatePosition d (vec mx my) (appState ui)
    | None =>
        match selected (rotating ui) with
        | Some r =>
            match find (fun o => String.eqb (id o) r) objs with
            | Some obj =>
                let dx := mx - x (position obj) in
                let dy := my - y (position obj) in
                let newRot := Math_atan2 dy dx in
                setObjects Math_cos Math_sin (rotatedTo r newRot objs)
                  (appState ui)
            | None => appState ui
            end
        | None => appState ui
        end
    end in
  {| appState := appState'; dragging := dragging ui;
     rotating := rotating ui; mousePos := vec mx my |}.

(** Lines 271-274. *)
Definition handleMouseUp (ui : Ui) : Ui :=
  {| appState := appState ui; dragging := None; rotating := None;
     mousePos := mousePos ui |}.

(** The scene of lines 169-172 and of the "Puzzle 1" button
    (lines 355-358). *)
Definition initialObjects : list OpticObject :=
  [ {| id := "light1"; type := Light; position := vec 100 300;
       rotation := 0; size := 20 |};
    {| id := "target1"; type := Target; position := vec 600 100;
       rotation := 0; size := 30 |} ].

(** The state after the first render: [solved] starts [false]
    (line 177) and the effect of lines 213-224 has run once. *)
Definition initialUi : Ui :=
  {| appState :=
       setObjects Math_cos Math_sin initialObjects
         {| objects := initialObjects; solved := false |};
     dragging := None; rotating := None; mousePos := vec 0 0 |}.

(** What the user can do to the scene. *)
Inductive Event : Type :=
| MouseDown (mx my : float) (shiftKey : bool)
| MouseMove (mx my : float)
| MouseUp
| AddObject (now : string) (ty : Addable)
| Puzzle1.

Definition handle (ui : Ui) (e : Event) : Ui :=
  match e with
  | MouseDown mx my shiftKey => handleMouseDown mx my shiftKey ui
  | MouseMove mx my => handleMouseMove mx my ui
  | MouseUp => handleMouseUp ui
  | AddObject now ty =>
      {| appState := addObject now ty (appState ui);
         dragging := dragging ui; rotating := rotating ui;
         mousePos := mousePos ui |}
  | Puzzle1 =>
      {| appState := setObjects Math_cos Math_sin initialObjects (appState ui);
         dragging := dragging ui; rotating := rotating ui;
         mousePos := mousePos ui |}
  end.

(** The state after a sequence of events. *)
Definition runEvents (events : list Event) (ui : Ui) : Ui :=
  fold_left handle events ui.

End SceneEditing.

(* ================================================================== *)
(** ** Geometric primitives over any scalar arithmetic *)

Section GeometryOverScalars.
Context {T : Type} {S : Scalar T}.
Local Open Scope scalar_scope.

(** [rotate] (lines 32-36) with the cosine and the sine of the angle
    given. *)
Definition rotateBy (c s : T) (v : Vector2 T) : Vector2 T :=
  vec (x v * c - y v * s) (x v * s + y v * c).

(** [getMirrorSegment] (lines 55-64): the two end points and the
    normal. *)
Definition mirrorSegmentBy (c s : T) (position : Vector2 T) (size : T)
  : Vector2 T * Vector2 T * Vector2 T :=
  let half := size / s_two in
  let localP1 := vec (- half) s_zero in
  let localP2 := vec half s_zero in
  let localNormal := vec s_zero s_one in
  (add position (rotateBy c s localP1),
   add position (rotateBy c s localP2),
   rotateBy c s localNormal).

(** The determinant, [t] and [u] of [lineIntersect] (lines 67-70). *)
Definition lineDenom (dir p1 p2 : Vector2 T) : T :=
  (x dir * (y p2 - y p1)) - (y dir * (x p2 - x p1)).

Definition lineT (origin dir p1 p2 : Vector2 T) : T :=
  ((x origin - x p1) * (y p2 - y p1) - (y origin - y p1) * (x p2 - x p1))
  / lineDenom dir p1 p2.

Definition lineU (origin dir p1 p2 : Vector2 T) : T :=
  - ((x dir * (y origin - y p1)) - (y dir * (x origin - x p1)))
  / lineDenom dir p1 p2.

(** The literals [4] and [0.01] of lines 111-117, read in [T]. *)
Variables four eps : T.

(** Lines 107-111. *)

Definition discOf (origin dir center : Vector2 T) (size : T) : T :=
  let oc := sub center origin in
  let a := s_one in
  let b := s_two * dot oc dir in
  let c := dot oc oc - (size / s_two) * (size / s_two) in
  b * b - four * a * c.

(** Lines 113-116. *)
Definition rootOf (origin dir center : Vector2 T) (size : T) : T :=
  let oc := sub center origin in
  let a := s_one in
  let b := s_two * dot oc dir in
  let disc := discOf origin dir center size in
  let t := (- b - s_sqrt disc) / (s_two * a) in
  if t <? eps then (- b + s_sqrt disc) / (s_two * a) else t.

(** The tests of lines 112, 117 and 120. *)
Definition prismCandidateOf (origin dir center : Vector2 T) (size : T)
  : option T :=
  if discOf origin dir center size <? s_zero then None else
  let t := rootOf origin dir center size in
  let hitP := add origin (scale t dir) in
  let radialNormal := normalize (sub hitP center) in
  if ((eps <? t) && (dot dir radialNormal <? s_zero))%bool then Some t
  else None.

End GeometryOverScalars.

(* ================================================================== *)
(** ** The intersections as the spec words them *)

Section IntersectionSystems.
Context {T : Type} {S : Scalar T}.
Local Open Scope scalar_scope.

(** The ray, parametrically: [origin + t*dir]. *)
Definition rayPoint (origin dir : Vector2 T) (t : T) : Vector2 T :=
  add origin (scale t dir).

(** The segment, parametrically: [p1 + u*(p2 - p1)]. *)
Definition segmentPoint (p1 p2 : Vector2 T) (u : T) : Vector2 T :=
  add p1 (scale u (sub p2 p1)).

(** [|p - center|^2], the left-hand side of the circle's quadratic
    [|origin + t*dir - center|^2 = radius^2] at [p = origin + t*dir]. *)
Definition distance2 (p center : Vector2 T) : T :=
  dot (sub p center) (sub p center).

End IntersectionSystems.


(* ================================================================== *)
(** ** Physics: refraction (C1) *)


(* ================================================================== *)
(** ** Vector algebra in exact arithmetic (C8, C9) *)

Section RealLaws.
Local Open Scope R_scope.

Lemma norm_nonneg (v : Vector2 R) : 0 <= norm v.
Proof. apply sqrt_pos. Qed.

Lemma norm_sqr (v : Vector2 R) : norm v * norm v = x v * x v + y v * y v.
Proof. unfold norm; cbn. apply sqrt_sqrt. nra. Qed.

(** [normalize] with its test [len > 0] decided on the reals. *)
Lemma normalize_real (v : Vector2 R) :
  normalize v =
  if Rlt_dec 0 (norm v) then vec (x v / norm v) (y v / norm v) else vec 0 0.
Proof.
  unfold normalize, norm; cbn; unfold Rltb.
  destruct (Rlt_dec _ _); reflexivity.
Qed.

Lemma normalize_zero_norm (v : Vector2 R) :
  norm v = 0 -> normalize v = vec 0 0.
Proof.
  intros H. rewrite normalize_real, H.
  destruct (Rlt_dec 0 0); [lra | reflexivity].
Qed.

Lemma normalize_pos_norm (v : Vector2 R) :
  norm v <> 0 -> normalize v = scale (1 / norm v) v.
Proof.
  intros H. pose proof (norm_nonneg v) as Hn.
  rewrite normalize_real.
  destruct (Rlt_dec 0 (norm v)) as [Hp | Hp]; [| lra].
  unfold scale; cbn. f_equal; field; exact H.
Qed.

Lemma norm_zero_vector : norm (vec 0 0 : Vector2 R) = 0.
Proof.
  unfold norm; cbn -[IZR].
  transitivity (sqrt 0); [f_equal; ring | apply sqrt_0].
Qed.

(** A normalized non-zero vector has length one. *)
Lemma norm_normalize (v : Vector2 R) :
  norm v <> 0 -> norm (normalize v) = 1.
Proof.
  intros H. pose proof (norm_nonneg v) as Hn. pose proof (norm_sqr v) as Hs.
  rewrite normalize_real.
  destruct (Rlt_dec 0 (norm v)) as [Hp | Hp]; [| lra].
  unfold norm at 1; cbn.
  rewrite <- sqrt_1. f_equal.
  field_simplify_eq; [| exact H].
  unfold norm in Hs; cbn in Hs. nra.
Qed.

(** [normalize] leaves a unit vector as it is. *)
Lemma normalize_unit (v : Vector2 R) : norm v = 1 -> normalize v = v.
Proof.
  intros H. rewrite normalize_real, H.
  destruct (Rlt_dec 0 1); [| lra].
  destruct v as [a b]; cbn. f_equal; field.
Qed.

Lemma reflect_real (d n : Vector2 R) :
  reflect d n = sub d (scale (2 * dot d (normalize n)) (normalize n)).
Proof. unfold reflect, sub, scale; cbn. f_equal; ring. Qed.

Lemma reflect_norm (d n : Vector2 R) :
  norm n = 1 -> norm (reflect d n) = norm d.
Proof.
  intros Hn. rewrite reflect_real, (normalize_unit n Hn).
  pose proof (norm_sqr n) as Hs. rewrite Hn in Hs.
  unfold norm, sub, scale, dot; cbn. f_equal.
  destruct d as [dx dy], n as [nx ny]; cbn in *.
  assert (E : nx * nx + ny * ny = 1) by lra.
  transitivity (dx * dx + dy * dy
                + 4 * (dx * nx + dy * ny) * (dx * nx + dy * ny)
                  * (nx * nx + ny * ny - 1)); [ring | rewrite E; ring].
Qed.

Lemma norm_3_4 : norm (vec 3 4 : Vector2 R) = 5.
Proof.
  unfold norm; cbn -[IZR].
  replace (3 * 3 + 4 * 4) with (5 * 5) by ring.
  apply sqrt_square; lra.
Qed.

Lemma norm_1_0 : norm (vec 1 0 : Vector2 R) = 1.
Proof.
  unfold norm; cbn -[IZR].
  transitivity (sqrt 1); [f_equal; ring | apply sqrt_1].
Qed.


Lemma sqrt_3_4 : sqrt (3 * 3 + 4 * 4) = 5.
Proof.
  replace (3 * 3 + 4 * 4) with (5 * 5) by ring.
  apply sqrt_square; lra.
Qed.

(** [reflect] in exact arithmetic, for a normal that is not the zero
    vector: [d - 2*(d.n)/(n.n) * n], which is [d - 2*dot(d, n^)*n^]. *)
Lemma reflect_components (d n : Vector2 R) :
  x n * x n + y n * y n <> 0 ->
  reflect d n
  = vec (x d - 2 * ((x d * x n + y d * y n) / (x n * x n + y n * y n)) * x n)
        (y d - 2 * ((x d * x n + y d * y n) / (x n * x n + y n * y n)) * y n).
Proof.
  intros Hn. pose proof (norm_sqr n) as Hs.
  assert (Hl : norm n <> 0) by (intros E; rewrite E in Hs; apply Hn; lra).
  unfold reflect. rewrite (normalize_pos_norm n Hl). rewrite <- Hs.
  set (l := norm n) in *. unfold sub, scale, dot; cbn -[l].
  f_equal; field; exact Hl.
Qed.

(** C8, as amended.  [reflect d n] is [d - 2*dot(d, n^)*n^] with
    [n^ = normalize n], componentwise: as the source computes it, in any
    scalar arithmetic (so on binary64); in exact arithmetic, for a normal
    other than the zero vector, with [n^ = n/|n|] written out; and for the
    zero normal it is [d] itself.  It is a total function.  In exact
    arithmetic, for unit [d] and unit [n], the result is
    [d - 2*(d.n)*n] and has length 1, the length of [d].  On binary64
    there are [d] and [n] of computed length 1 for which the computed
    length of the result is not that of [d]. *)
Theorem reflect_formula_and_magnitude :
  (forall (T : Type) (S : Scalar T) (d n : Vector2 T),
      let nn := normalize n in
      let k := (x d * x nn + y d * y nn)%sc in
      reflect d n
      = vec (x d - s_two * (k * x nn))%sc (y d - s_two * (k * y nn))%sc)
  /\ (forall d n : Vector2 R,
        x n * x n + y n * y n <> 0 ->
        let k := (x d * x n + y d * y n) / (x n * x n + y n * y n) in
        reflect d n = vec (x d - 2 * k * x n) (y d - 2 * k * y n))
  /\ (forall d : Vector2 R, reflect d (vec 0 0) = d)
  /\ (forall d n : Vector2 R,
        x d * x d + y d * y d = 1 ->
        x n * x n + y n * y n = 1 ->
        let k := x d * x n + y d * y n in
        let r := reflect d n in
        r = vec (x d - 2 * k * x n) (y d - 2 * k * y n)
        /\ x r * x r + y r * y r = 1
        /\ sqrt (x r * x r + y r * y r) = sqrt (x d * x d + y d * y d))
  /\ (exists d n : Vector2 float,
        norm d = 1%float /\ norm n = 1%float
        /\ (norm (reflect d n) =? norm d)%float = false).
Proof.
  split; [| split; [| split; [| split]]]; cycle 4.
  { exists (normalize (vec 1 4)%float), (normalize (vec 1 5)%float).
    repeat split; vm_compute; reflexivity. }
  - intros T S d n. reflexivity.
  - intros d n Hn k. exact (reflect_components d n Hn).
  - intros d. unfold reflect.
    rewrite (normalize_zero_norm _ norm_zero_vector).
    destruct d as [dx dy]. unfold sub, scale, dot; cbn. f_equal; ring.
  - intros d n Hd Hn k r.
    assert (Hn0 : x n * x n + y n * y n <> 0) by lra.
    assert (Hr : r = vec (x d - 2 * k * x n) (y d - 2 * k * y n)).
    { unfold r. rewrite (reflect_components d n Hn0), Hn.
      unfold k. f_equal; field. }
    assert (Hone : x r * x r + y r * y r = 1).
    { rewrite Hr. cbn [x y].
      transitivity (x d * x d + y d * y d
                    + 4 * k * k * (x n * x n + y n * y n - 1));
        [unfold k; ring | rewrite Hn, Hd; ring]. }
    split; [exact Hr |]. split; [exact Hone |].
    rewrite Hone, Hd. reflexivity.
Qed.

(** The unit vector [(3/5, 4/5)] reflected about the unit normal [(0,1)]
    is [(3/5, -4/5)], of length 1. *)
Lemma reflect_formula_and_magnitude_witness :
  reflect (vec (3 / 5) (4 / 5)) (vec 0 1) = vec (3 / 5) (- (4 / 5))
  /\ (3 / 5) * (3 / 5) + (- (4 / 5)) * (- (4 / 5)) = 1.
Proof.
  destruct (proj1 (proj2 (proj2 (proj2 reflect_formula_and_magnitude)))
              (vec (3 / 5) (4 / 5)) (vec 0 1)) as (Hr & Hone & _).
  - cbn [x y]. field.
  - cbn [x y]. ring.
  - cbn zeta in Hr, Hone. rewrite Hr in Hone |- *. cbn [x y] in Hone |- *.
    split; [f_equal; field |].
    rewrite <- Hone. field.
Defined.

(** C9, as amended.  [normalize v] tests the computed length
    [len = sqrt(x*x + y*y)] and divides by it only when [len > 0], in any
    scalar arithmetic (so on binary64); otherwise it is the zero vector.
    In exact arithmetic the length is 0 for the zero vector only, which is
    mapped to itself; every other vector is mapped to [v] scaled by
    [1/|v|], a vector of length 1; and [normalize] is idempotent.  On
    binary64 the zero vector is mapped to itself, there is a vector whose
    image is changed by a second [normalize], and there is a vector other
    than the zero vector whose computed length is 0, so that it is mapped
    to the zero vector. *)
Theorem normalize_cases_and_idempotent :
  (forall (T : Type) (S : Scalar T) (v : Vector2 T),
      let len := s_sqrt (x v * x v + y v * y v)%sc in
      normalize v
      = if (len >? s_zero)%sc then vec (x v / len)%sc (y v / len)%sc
        else vec s_zero s_zero)
  /\ (forall v : Vector2 R,
        let len := sqrt (x v * x v + y v * y v) in
        let u := normalize v in
        (len = 0 -> v = vec 0 0 /\ u = vec 0 0)
        /\ (len <> 0 ->
            u = vec (1 / len * x v) (1 / len * y v)
            /\ x u * x u + y u * y u = 1)
        /\ normalize u = u)
  /\ normalize (vec 0 0 : Vector2 R) = vec 0 0
  /\ normalize (vec 0%float 0%float) = vec 0%float 0%float
  /\ (exists v : Vector2 float, normalize (normalize v) <> normalize v)
  /\ (exists v : Vector2 float,
        (x v =? 0)%float = false
        /\ norm v = 0%float /\ normalize v = vec 0%float 0%float).
Proof.
  split; [| split; [| split; [| split; [| split]]]]; cycle 4.
  { exists (vec 1 3)%float. intros H. apply (f_equal x) in H.
    assert (E : (x (normalize (normalize (vec 1 3)%float))
                 =? x (normalize (vec 1 3)%float))%float = true)
      by (rewrite H; reflexivity).
    vm_compute in E. discriminate. }
  { exists (vec 0x1p-600 0x1p-600)%float.
    repeat split; vm_compute; reflexivity. }
  - intros T S v. reflexivity.
  - intros v. cbn zeta.
    change (sqrt (x v * x v + y v * y v)) with (norm v).
    split; [| split].
    + intros H0. split; [| exact (normalize_zero_norm v H0)].
      pose proof (norm_sqr v) as Hs. rewrite H0 in Hs.
      destruct v as [a b]; cbn [x y] in Hs.
      assert (Ha : a = 0) by nra. assert (Hb : b = 0) by nra.
      rewrite Ha, Hb. reflexivity.
    + intros Hn. split.
      * rewrite (normalize_pos_norm v Hn). reflexivity.
      * pose proof (norm_sqr (normalize v)) as Hs.
        rewrite (norm_normalize v Hn) in Hs. lra.
    + destruct (Req_dec (norm v) 0) as [H0 | Hn].
      * rewrite (normalize_zero_norm v H0).
        exact (normalize_zero_norm _ norm_zero_vector).
      * apply normalize_unit, norm_normalize, Hn.
  - exact (normalize_zero_norm _ norm_zero_vector).
  - reflexivity.
Qed.

(** The vector [(3,4)], of length 5, is mapped to [(3/5, 4/5)]. *)
Lemma normalize_cases_and_idempotent_witness :
  normalize (vec 3 4 : Vector2 R) = vec (3 / 5) (4 / 5)
  /\ (3 / 5) * (3 / 5) + (4 / 5) * (4 / 5) = 1.
Proof.
  destruct (proj1 (proj2 normalize_cases_and_idempotent) (vec 3 4))
    as (_ & Hpos & _).
  cbn zeta in Hpos. cbn [x y] in Hpos. rewrite sqrt_3_4 in Hpos.
  destruct Hpos as [Hu _]; [lra |].
  split; [rewrite Hu; f_equal; field | field].
Defined.

End RealLaws.

Section RoundingOnBinary64.
Local Open Scope float_scope.

(** C8, as stated, fails on binary64.  The program's [normalize] makes
    [d = normalize(1,4)] and [n = normalize(1,5)], each of computed length
    exactly 1; the length of [reflect(d, n)] is the next number after 1,
    not the length of [d]. *)
Lemma reflect_magnitude_rounds_on_binary64 :
  let d := normalize (vec 1 4) in
  let n := normalize (vec 1 5) in
  norm d = 1
  /\ norm n = 1
  /\ reflect d n = vec (-0.14925269233005112) (-0.98879908668658856)
  /\ norm (reflect d n) = 1.0000000000000002
  /\ (norm (reflect d n) =? norm d) = false.
Proof.
  repeat split; vm_compute; reflexivity.
Qed.

(** C9, as stated, fails on binary64.  Normalizing [normalize(1,3)] once
    more changes both components in the last place.  The vector
    [(2^-600, 2^-600)] is not of length 0, but its squares underflow to
    0, the computed length is 0, and it is mapped to the zero vector, not
    to a vector of length 1; for [(2^600, 2^600)] the computed length is
    [Infinity] and the quotient is the zero vector too. *)
Lemma normalize_rounds_on_binary64 :
  normalize (vec 1 3) = vec 0.31622776601683794 0.94868329805051377
  /\ normalize (normalize (vec 1 3))
     = vec 0.316227766016838 0.94868329805051388
  /\ (x (normalize (normalize (vec 1 3))) =? x (normalize (vec 1 3))) = false
  /\ norm (vec 0x1p-600 0x1p-600) = 0
  /\ normalize (vec 0x1p-600 0x1p-600) = vec 0 0
  /\ norm (vec 0x1p600 0x1p600) = infinity
  /\ normalize (vec 0x1p600 0x1p600) = vec 0 0.
Proof.
  repeat split; vm_compute; reflexivity.
Qed.

End RoundingOnBinary64.

(* ================================================================== *)
(** ** Ray against segment (C4) *)

Section Primitives.
Local Open Scope float_scope.

(** The branches of [lineIntersect], in the two parameters [li_t] and
    [li_u] that the source computes: the point [origin + li_t*dir] exactly
    when the determinant's magnitude is not below [1e-6] and [li_t >= 0],
    [0 <= li_u], [li_u <= 1], and no intersection otherwise. *)
Lemma lineIntersect_cases :
  forall origin dir p1 p2 : Vector2 float,
    let denom := li_denom dir p1 p2 in
    let t := li_t origin dir p1 p2 in
    let u := li_u origin dir p1 p2 in
    (lineIntersect origin dir p1 p2 =
       {| point := Some (add origin (scale t dir)); int_t := t; int_u := u |}
     <-> (Math_abs denom <? 1e-6) = false
         /\ (0 <=? t) = true /\ (0 <=? u) = true /\ (u <=? 1) = true)
    /\ (lineIntersect origin dir p1 p2 = noIntersection
        <-> (Math_abs denom <? 1e-6) = true
            \/ ~ ((0 <=? t) = true /\ (0 <=? u) = true /\ (u <=? 1) = true)).
Proof.
  intros origin dir p1 p2 denom t u.
  unfold lineIntersect, noIntersection. fold denom t u.
  destruct (Math_abs denom <? 1e-6) eqn:Hpar.
  - split; split; intros H; try reflexivity; try discriminate; auto.
    destruct H; discriminate.
  - destruct (0 <=? t) eqn:Ht, (0 <=? u) eqn:Hu, (u <=? 1) eqn:Hu1; cbn;
      split; split; intros H;
      try reflexivity; try discriminate; auto;
      try (destruct H as (_ & A & B & C); discriminate);
      try (right; intros (A & B & C); discriminate);
      destruct H as [H | H]; try discriminate; exfalso; apply H; auto.
Qed.

(** C4: the code departs from the claim.  The 2x2 system is
    [origin + t*dir = p1 + u*(p2 - p1)].  For the ray from [(0,0)] along
    [+x] and the segment from [(2,-1)] to [(2,1)], straight ahead, the
    system is solved by [t = 2], [u = 0.5], at the point [(2,0)]; the
    determinant is 2, [t >= 0] and [u] is in [[0,1]], so the claim has
    [lineIntersect] return [(2,0)].  The source computes [t = -2] and
    [u = -0.5], the solution negated, and returns no intersection.  For
    the segment from [(-2,1)] to [(-2,3)], whose line the ray's line meets
    behind the origin and off the segment ([t = -2], [u = -0.5]), the
    source computes [t = 2], [u = 0.5] and returns the point [(2,0)],
    which is not on that segment's line. *)
Theorem lineIntersect_misses_segment_ahead :
  let origin := vec 0 0 in
  let dir := vec 1 0 in
  let p1 := vec 2 (-1) in
  let p2 := vec 2 1 in
  let q1 := vec (-2) 1 in
  let q2 := vec (-2) 3 in
  rayPoint origin dir 2 = vec 2 0
  /\ segmentPoint p1 p2 0.5 = vec 2 0
  /\ (Math_abs (li_denom dir p1 p2) <? 1e-6) = false
  /\ li_t origin dir p1 p2 = -2
  /\ li_u origin dir p1 p2 = -0.5
  /\ lineIntersect origin dir p1 p2 = noIntersection
  /\ rayPoint origin dir (-2) = vec (-2) 0
  /\ segmentPoint q1 q2 (-0.5) = vec (-2) 0
  /\ lineIntersect origin dir q1 q2
     = {| point := Some (vec 2 0); int_t := 2; int_u := 0.5 |}.
Proof.
  repeat split; vm_compute; reflexivity.
Qed.

End Primitives.

(* ================================================================== *)
(** ** Ray against prism disc (C2) *)

Section PrismStep.
Local Open Scope float_scope.

(** The branches of the prism step, in the roots [smallerRoot] and
    [largerRoot] that the source computes.  With the disc of radius
    [size/2] around [position]: a negative discriminant leaves the nearest
    hit as it was; otherwise the root is the smaller root
    [(-b - sqrt disc)/2], replaced by the larger root when the smaller one
    is strictly below [0.01] (a smaller root equal to [0.01] is kept); the
    step either leaves the nearest hit as it was or records the hit at
    that root, and it records it only if [t > 0.01] and
    [dot(dir, radial normal) < 0] (and [t] is nearer than the hit so far);
    under these conditions it does record it. *)
Lemma prismStep_cases :
  forall (origin dir : Vector2 float) (near : Nearest) (obj : OpticObject),
    let t := prismRoot origin dir obj in
    ((prism_disc origin dir obj <? 0) = true ->
       prismStep origin dir near obj = near)
    /\ ((smallerRoot origin dir obj <? 0.01) = false ->
          t = smallerRoot origin dir obj)
    /\ ((smallerRoot origin dir obj <? 0.01) = true ->
          t = largerRoot origin dir obj)
    /\ (prismStep origin dir near obj = near
        \/ ((prism_disc origin dir obj <? 0) = false
            /\ (0.01 <? t) = true
            /\ (t <? minT near) = true
            /\ (dot dir (radialNormal origin dir obj t) <? 0) = true
            /\ prismStep origin dir near obj = prismHit origin dir obj t))
    /\ ((prism_disc origin dir obj <? 0) = false ->
        (0.01 <? t) = true ->
        (t <? minT near) = true ->
        (dot dir (radialNormal origin dir obj t) <? 0) = true ->
        prismStep origin dir near obj = prismHit origin dir obj t).
Proof.
  intros origin dir near obj t.
  assert (Hroot : t = if smallerRoot origin dir obj <? 0.01
                      then largerRoot origin dir obj
                      else smallerRoot origin dir obj) by reflexivity.
  unfold prismStep, prismHit, radialNormal. fold t.
  split; [| split; [| split; [| split]]].
  - intros ->. reflexivity.
  - intros H. rewrite Hroot, H. reflexivity.
  - intros H. rewrite Hroot, H. reflexivity.
  - destruct (prism_disc origin dir obj <? 0); [left; reflexivity |].
    destruct (0.01 <? t); [| left; reflexivity].
    destruct (t <? minT near); [| left; reflexivity]. cbn.
    match goal with
    | |- context [if ?c then _ else _] => destruct c eqn:Hout
    end; [| left; reflexivity].
    right. repeat split; reflexivity.
  - intros Hd Ht Hm Hout. rewrite Hd, Ht, Hm. cbn [andb].
    rewrite Hout. reflexivity.
Qed.

(** The step on a ray that starts inside a disc of radius 50, 30 units
    from its centre and heading for it: the smaller root is [-80], the
    larger root [20] is taken and recorded. *)
Lemma prismStep_from_inside :
  prismRoot Examples.zero2 (vec 1 0) Examples.bigPrism = 20
  /\ prismStep Examples.zero2 (vec 1 0) noHit Examples.bigPrism
     = prismHit Examples.zero2 (vec 1 0) Examples.bigPrism 20.
Proof.
  split; [reflexivity |].
  exact (proj2 (proj2 (proj2 (proj2
           (prismStep_cases Examples.zero2 (vec 1 0) noHit
              Examples.bigPrism))))
           eq_refl eq_refl eq_refl eq_refl).
Qed.

(** A smaller root that is the threshold itself is kept (line 114 tests
    [t < 0.01]).  For the ray from [(0.0109765625, 0)] along [+x] and the
    disc of radius [2^-10] at the origin, the discriminant is positive,
    the smaller root is [0.01], the larger root is [0.011953125], and the
    step goes on with the smaller root, which it then does not accept. *)
Lemma prismStep_root_at_threshold :
  (prism_disc Examples.nearOrigin (vec 1 0) Examples.tinyPrism <? 0) = false
  /\ smallerRoot Examples.nearOrigin (vec 1 0) Examples.tinyPrism = 0.01
  /\ (smallerRoot Examples.nearOrigin (vec 1 0) Examples.tinyPrism <=? 0.01)
     = true
  /\ largerRoot Examples.nearOrigin (vec 1 0) Examples.tinyPrism = 0.011953125
  /\ prismRoot Examples.nearOrigin (vec 1 0) Examples.tinyPrism = 0.01
  /\ prismRoot Examples.nearOrigin (vec 1 0) Examples.tinyPrism
     <> largerRoot Examples.nearOrigin (vec 1 0) Examples.tinyPrism
  /\ prismStep Examples.nearOrigin (vec 1 0) noHit Examples.tinyPrism = noHit.
Proof.
  repeat split; try (vm_compute; reflexivity).
  vm_compute. intros H.
  assert (E : (0.01 =? 0.011953125) = true) by (rewrite H at 1; reflexivity).
  vm_compute in E. discriminate.
Qed.

(** C2: the code departs from the claim.  The ray from [(-100,0)] along
    [+x] is aimed at the centre [(30,0)] of a prism disc of radius 50,
    from outside: it meets the circle at [t = 80 = 130 - 50] (and leaves
    it at [t = 180]), and there it approaches from outside,
    [dot(dir, radial normal) = -1 < 0]; the claim has the prism step
    accept this hit.  The source's [b = 2*dot(center - origin, dir) = 260]
    has the sign of the quadratic's linear term reversed, so its roots are
    [-180] and [-80], no root passes [t > 0.01], and the step leaves the
    nearest hit as it was: the ray goes through the prism.  From inside
    the disc, at [(0,0)], the source does record a hit, at [t = 20]: the
    point [(20,0)], 10 units from the centre and not on the circle. *)
Theorem prismStep_misses_disc_ahead :
  let origin := vec (-100) 0 in
  let dir := vec 1 0 in
  let obj := Examples.bigPrism in
  let radius := size obj / 2 in
  norm (sub (position obj) origin) - radius = 80
  /\ distance2 (rayPoint origin dir 80) (position obj) = radius * radius
  /\ distance2 (rayPoint origin dir 180) (position obj) = radius * radius
  /\ dot dir (normalize (sub (rayPoint origin dir 80) (position obj))) = -1
  /\ prism_b origin dir obj = 260
  /\ (prism_disc origin dir obj <? 0) = false
  /\ smallerRoot origin dir obj = -180
  /\ largerRoot origin dir obj = -80
  /\ prismRoot origin dir obj = -80
  /\ (forall near : Nearest, prismStep origin dir near obj = near)
  /\ (forall Math_cos Math_sin : float -> float,
        traceRay Math_cos Math_sin origin dir 0 [obj]
        = [{| start := vec (-100) 0; seg_end := vec 900 0;
              color := Some "red"%string |}])
  /\ prismStep Examples.zero2 dir noHit obj
     = prismHit Examples.zero2 dir obj 20
  /\ distance2 (rayPoint Examples.zero2 dir 20) (position obj) = 100
  /\ radius * radius = 2500.
Proof.
  repeat split; vm_compute; reflexivity.
Qed.

End PrismStep.

(* ================================================================== *)
(** ** The nearest hit is at a finite distance *)

Section NearestHit.
Variables Math_cos Math_sin : float -> float.
Local Open Scope float_scope.

(** A binary64 value below another one is below [Infinity]. *)
Lemma ltb_below_infinity (a b : float) :
  (a <? b) = true -> (a <? infinity) = true.
Proof.
  rewrite !ltb_spec. unfold SFltb.
  change (Prim2SF infinity) with (S754_infinity false).
  destruct (Prim2SF a) as [sa | sa | | sa ma ea],
           (Prim2SF b) as [sb | sb | | sb mb eb];
    try destruct sa; try destruct sb; cbn; intros H;
    try discriminate; reflexivity.
Qed.

Lemma mirrorStep_finiteHit (origin dir : Vector2 float) (near : Nearest)
  (obj : OpticObject) :
  finiteHit near ->
  finiteHit (mirrorStep Math_cos Math_sin origin dir near obj).
Proof.
  intros Hnear. unfold mirrorStep.
  destruct (point _) as [pt |]; [| exact Hnear].
  match goal with
  | |- context [if ?a && ?b && ?c then _ else _] =>
      destruct a; [| exact Hnear];
      destruct b eqn:Hlt; [| exact Hnear];
      destruct c; [| exact Hnear]
  end.
  intros _. cbn [minT]. exact (ltb_below_infinity _ _ Hlt).
Qed.

Lemma prismStep_finiteHit (origin dir : Vector2 float) (near : Nearest)
  (obj : OpticObject) :
  finiteHit near -> finiteHit (prismStep origin dir near obj).
Proof.
  intros Hnear. unfold prismStep.
  destruct (prism_disc origin dir obj <? 0); [exact Hnear |].
  match goal with
  | |- context [if ?a && ?b then _ else _] =>
      destruct a; [| exact Hnear];
      destruct b eqn:Hlt; [| exact Hnear]
  end.
  cbn [andb].
  match goal with
  | |- context [if ?c then _ else _] => destruct c; [| exact Hnear]
  end.
  intros _. cbn [minT]. exact (ltb_below_infinity _ _ Hlt).
Qed.

Lemma fold_left_finiteHit (f : Nearest -> OpticObject -> Nearest)
  (objects : list OpticObject) (near : Nearest) :
  (forall n o, finiteHit n -> finiteHit (f n o)) ->
  finiteHit near -> finiteHit (fold_left f objects near).
Proof.
  intros Hf. revert near.
  induction objects as [| o objects IH]; intros near Hnear; cbn; auto.
Qed.

Lemma findHit_finiteHit (objects : list OpticObject)
  (origin dir : Vector2 float) :
  finiteHit (findHit Math_cos Math_sin objects origin dir).
Proof.
  unfold findHit.
  apply fold_left_finiteHit; [intros; apply prismStep_finiteHit; auto |].
  apply fold_left_finiteHit; [intros; apply mirrorStep_finiteHit; auto |].
  intros H. exfalso. apply H. reflexivity.
Qed.


End NearestHit.

(* ================================================================== *)
(** ** One iteration of the bounce loop *)

Section BounceStep.
Variables Math_cos Math_sin : float -> float.
Local Open Scope float_scope.

Lemma escape_segments (colorIndex : nat) (st : TraceState) :
  segments (escape colorIndex st) =
  segments st ++
  (if 0 <? maxLength - totalLength st then [finalSegment colorIndex st]
   else []).
Proof.
  unfold escape, finalSegment.
  destruct (0 <? maxLength - totalLength st); cbn [segments].
  - reflexivity.
  - symmetry. apply app_nil_r.
Qed.


Lemma advance_state (colorIndex : nat) (st : TraceState) (near : Nearest)
  (h : Hit) :
  segments (stateOf (advance colorIndex st near h)) =
  segments st ++ [hitSegment colorIndex st near]
  /\ totalLength (stateOf (advance colorIndex st near h)) =
     totalLength st + minT near.
Proof.
  unfold advance, hitSegment.
  destruct (bounce colorIndex (dir st) h) as [dir' origin'].
  cbn [totalLength].
  destruct (maxLength <? totalLength st + minT near); cbn; auto.
Qed.

(** [advance] leaves the loop exactly when the length exceeds the budget. *)
Lemma advance_break (colorIndex : nat) (st : TraceState) (near : Nearest)
  (h : Hit) :
  advance colorIndex st near h =
  if maxLength <? totalLength (stateOf (advance colorIndex st near h))
  then Break (stateOf (advance colorIndex st near h))
  else Continue (stateOf (advance colorIndex st near h)).
Proof.
  unfold advance.
  destruct (bounce colorIndex (dir st) h) as [dir' origin'].
  cbn [totalLength].
  destruct (maxLength <? totalLength st + minT near) eqn:E;
    cbn [stateOf totalLength]; rewrite E; reflexivity.
Qed.


Lemma bounceStep_hit (objects : list OpticObject) (colorIndex : nat)
  (st : TraceState) (h : Hit) :
  let near := findHit Math_cos Math_sin objects (origin st) (dir st) in
  hit near = Some h ->
  (minT near <? infinity) = true ->
  bounceStep Math_cos Math_sin objects colorIndex st
  = advance colorIndex st near h.
Proof.
  intros near Hh Hfin. unfold bounceStep. fold near.
  rewrite Hh, Hfin. reflexivity.
Qed.

(** An iteration appends at most one segment. *)
Lemma bounceStep_appends (objects : list OpticObject) (colorIndex : nat)
  (st : TraceState) :
  exists more,
    segments (stateOf (bounceStep Math_cos Math_sin objects colorIndex st))
    = segments st ++ more
    /\ (List.length more <= 1)%nat.
Proof.
  unfold bounceStep.
  set (near := findHit Math_cos Math_sin objects (origin st) (dir st)).
  assert (Hesc : exists more,
             segments (stateOf (Break (escape colorIndex st)))
             = segments st ++ more /\ (List.length more <= 1)%nat).
  { cbn [stateOf]. rewrite escape_segments.
    destruct (0 <? maxLength - totalLength st);
      eexists; split; try reflexivity; cbn; lia. }
  destruct (hit near) as [h |]; [| exact Hesc].
  destruct (minT near <? infinity); [| exact Hesc].
  exists [hitSegment colorIndex st near]. split; [| cbn; lia].
  apply advance_state.
Qed.

End BounceStep.

(* ================================================================== *)
(** ** The bounce loop (C3, C5, C10) *)

Section BounceLoop.
Variables Math_cos Math_sin : float -> float.
Local Open Scope float_scope.

Lemma bounceLoop_iterations (fuel : nat) (objects : list OpticObject)
  (colorIndex : nat) (st : TraceState) :
  (fst (bounceLoop Math_cos Math_sin fuel objects colorIndex st) <= fuel)%nat.
Proof.
  revert st. induction fuel as [| fuel IH]; intros st; cbn [bounceLoop].
  - cbn. lia.
  - destruct (bounceStep Math_cos Math_sin objects colorIndex st)
      as [st' | st'].
    + specialize (IH st').
      destruct (bounceLoop Math_cos Math_sin fuel objects colorIndex st')
        as [k final].
      cbn in *. lia.
    + cbn. lia.
Qed.

Lemma bounceLoop_S (fuel : nat) (objects : list OpticObject)
  (colorIndex : nat) (st : TraceState) :
  bounceLoop Math_cos Math_sin (S fuel) objects colorIndex st =
  match bounceStep Math_cos Math_sin objects colorIndex st with
  | Continue st' =>
      let '(k, final) :=
        bounceLoop Math_cos Math_sin fuel objects colorIndex st' in
      (S k, final)
  | Break st' => (1%nat, st')
  end.
Proof. reflexivity. Qed.

(** The loop only appends, and no more segments than iterations. *)
Lemma bounceLoop_appends (fuel : nat) (objects : list OpticObject)
  (colorIndex : nat) (st : TraceState) :
  exists more,
    segments (snd (bounceLoop Math_cos Math_sin fuel objects colorIndex st))
    = segments st ++ more
    /\ (List.length more
        <= fst (bounceLoop Math_cos Math_sin fuel objects colorIndex st))%nat.
Proof.
  revert st. induction fuel as [| fuel IH]; intros st; cbn [bounceLoop].
  - exists []. cbn. rewrite app_nil_r. split; [reflexivity | lia].
  - destruct (bounceStep_appends Math_cos Math_sin objects colorIndex st)
      as (more1 & Hseg1 & Hlen1).
    destruct (bounceStep Math_cos Math_sin objects colorIndex st)
      as [st' | st']; cbn [stateOf] in Hseg1.
    + destruct (IH st') as (more2 & Hseg2 & Hlen2).
      destruct (bounceLoop Math_cos Math_sin fuel objects colorIndex st')
        as [k final].
      cbn [fst snd] in *. exists (more1 ++ more2).
      rewrite Hseg2, Hseg1, app_assoc, length_app.
      split; [reflexivity | lia].
    + exists more1. cbn [fst snd]. split; [exact Hseg1 | lia].
Qed.

(** While every iteration finds a hit, each iteration appends exactly one
    segment, and the loop is left early only by the length test of
    line 157. *)
Lemma bounceLoop_neverEscapes (fuel : nat) (objects : list OpticObject)
  (colorIndex : nat) (st : TraceState) :
  neverEscapes Math_cos Math_sin fuel objects colorIndex st = true ->
  let run := bounceLoop Math_cos Math_sin fuel objects colorIndex st in
  List.length (segments (snd run))
  = (List.length (segments st) + fst run)%nat
  /\ (fst run = fuel \/ (maxLength <? totalLength (snd run)) = true).
Proof.
  revert st. induction fuel as [| fuel IH]; intros st;
    cbn [bounceLoop neverEscapes].
  - intros _. cbn. split; [lia | left; reflexivity].
  - set (near := findHit Math_cos Math_sin objects (origin st) (dir st)).
    destruct (hit near) as [h |] eqn:Hh; [| discriminate].
    intros Hne. apply andb_true_iff in Hne. destruct Hne as [Hfin Hne].
    rewrite (bounceStep_hit Math_cos Math_sin objects colorIndex st h Hh Hfin).
    fold near. rewrite advance_break.
    destruct (advance_state colorIndex st near h) as [Hseg _].
    set (st1 := stateOf (advance colorIndex st near h)) in *.
    destruct (maxLength <? totalLength st1) eqn:Hlen.
    + cbn [fst snd]. rewrite Hseg, length_app. cbn.
      split; [lia | right; exact Hlen].
    + destruct (IH st1 Hne) as [Hcount Hstop].
      destruct (bounceLoop Math_cos Math_sin fuel objects colorIndex st1)
        as [k final].
      cbn [fst snd] in *. rewrite Hcount, Hseg, length_app. cbn.
      split; [lia |]. destruct Hstop as [-> | Hstop]; auto.
Qed.

End BounceLoop.

Section TraceClaims.
Local Open Scope float_scope.





(** Why the scenario is stated for scenes without mirrors and prisms.  A
    mirror from [(-100,320)] to [(-100,420)] is behind the light at
    [(100,300)] and off the line of its ray: the ray's line meets the
    mirror's line at [t = -200], [u = -0.2].  The source computes
    [t = 200], [u = 0.2] (the solution negated), takes the mirror as hit
    at [(300,300)], and the trace has two segments per wavelength. *)
Lemma mirror_behind_the_light_is_hit :
  let origin := vec 100 300 in
  let dir := vec 1 0 in
  let seg :=
    getMirrorSegment Examples.boxCos Examples.boxSin Examples.mirrorBehind in
  seg_p1 seg = vec (-100) 320
  /\ seg_p2 seg = vec (-100) 420
  /\ rayPoint origin dir (-200) = vec (-100) 300
  /\ segmentPoint (seg_p1 seg) (seg_p2 seg) (-0.2) = vec (-100) 300
  /\ li_t origin dir (seg_p1 seg) (seg_p2 seg) = 200
  /\ li_u origin dir (seg_p1 seg) (seg_p2 seg) = 0.2
  /\ map seg_end
       (traceRay Examples.boxCos Examples.boxSin origin dir 0
          Examples.sceneWithMirrorBehind)
     = [vec 300 300; vec (-500.10000000000002) 300.00000000000011]
  /\ List.length
       (computeRays Examples.boxCos Examples.boxSin
          Examples.sceneWithMirrorBehind) = 14%nat.
Proof.
  repeat split; vm_compute; reflexivity.
Qed.

End TraceClaims.

Section Termination.
Local Open Scope float_scope.

(** The bounds of the loop.  [traceRay] runs at most 10 iterations, each
    iteration appends at most one segment, and the trace has at most as
    many segments as iterations ran, so at most 10.  When every iteration
    finds a hit, every iteration that runs appends exactly one segment,
    and either all 10 iterations run (exactly 10 segments) or the loop has
    been left earlier because the accumulated length exceeds
    [maxLength]. *)
Lemma traceRay_bounded :
  forall (Math_cos Math_sin : float -> float)
         (initialOrigin initialDir : Vector2 float) (colorIndex : nat)
         (objects : list OpticObject),
    let iterations :=
      traceIterations Math_cos Math_sin initialOrigin initialDir colorIndex
        objects in
    let trace :=
      traceRay Math_cos Math_sin initialOrigin initialDir colorIndex objects in
    (iterations <= 10)%nat
    /\ (List.length trace <= iterations)%nat
    /\ (List.length trace <= 10)%nat
    /\ (forall st : TraceState,
          exists more,
            segments (stateOf (bounceStep Math_cos Math_sin objects
                                 colorIndex st))
            = segments st ++ more /\ (List.length more <= 1)%nat)
    /\ (neverEscapes Math_cos Math_sin 10 objects colorIndex
          (initialState initialOrigin initialDir) = true ->
        List.length trace = iterations
        /\ (iterations = 10%nat
            \/ (maxLength <?
                totalLength
                  (snd (bounceLoop Math_cos Math_sin maxBounces objects
                          colorIndex
                          (initialState initialOrigin initialDir))))
               = true)).
Proof.
  intros Math_cos Math_sin initialOrigin initialDir colorIndex objects
         iterations trace.
  pose proof (bounceLoop_iterations Math_cos Math_sin maxBounces objects
                colorIndex (initialState initialOrigin initialDir)) as Hit.
  destruct (bounceLoop_appends Math_cos Math_sin maxBounces objects
              colorIndex (initialState initialOrigin initialDir))
    as (more & Hseg & Hlen).
  assert (Htrace : (List.length trace <= iterations)%nat).
  { unfold trace, traceRay, iterations, traceIterations.
    rewrite Hseg. cbn [initialState segments app]. exact Hlen. }
  unfold maxBounces in Hit. fold iterations in Hit.
  split; [exact Hit |]. split; [exact Htrace |].
  split; [exact (Nat.le_trans _ _ _ Htrace Hit) |].
  split; [intros st; apply bounceStep_appends |].
  intros Hne.
  destruct (bounceLoop_neverEscapes Math_cos Math_sin 10 objects colorIndex
              (initialState initialOrigin initialDir) Hne) as [Hcount Hstop].
  split; [exact Hcount | exact Hstop].
Qed.

(** Two mirrors between which the source finds a hit in each of the 10
    iterations: the trace has exactly 10 segments. *)
Lemma traceRay_bounded_smallRing :
  neverEscapes Examples.hostCos Examples.hostSin 10 Examples.smallRing 0
    (initialState Examples.zero2 Examples.down) = true
  /\ List.length (traceRay Examples.hostCos Examples.hostSin Examples.zero2
                    Examples.down 0 Examples.smallRing)
     = traceIterations Examples.hostCos Examples.hostSin Examples.zero2
         Examples.down 0 Examples.smallRing
  /\ traceIterations Examples.hostCos Examples.hostSin Examples.zero2
       Examples.down 0 Examples.smallRing = 10%nat.
Proof.
  split; [vm_compute; reflexivity |].
  split; [| vm_compute; reflexivity].
  refine (proj1 (proj2 (proj2 (proj2 (proj2
            (traceRay_bounded Examples.hostCos Examples.hostSin
               Examples.zero2 Examples.down 0 Examples.smallRing)))) _)).
  vm_compute; reflexivity.
Qed.

(** With the mirrors three times as far apart the accumulated length
    passes 1000 with the fourth segment and the trace ends there, after 4
    iterations and 4 segments (line 157). *)
Lemma largeRing_stops_after_four :
  neverEscapes Examples.hostCos Examples.hostSin 10 Examples.largeRing 0
    (initialState Examples.zero2 Examples.down) = true
  /\ traceIterations Examples.hostCos Examples.hostSin Examples.zero2
       Examples.down 0 Examples.largeRing = 4%nat
  /\ List.length (traceRay Examples.hostCos Examples.hostSin Examples.zero2
                    Examples.down 0 Examples.largeRing) = 4%nat
  /\ (maxLength <?
      totalLength
        (snd (bounceLoop Examples.hostCos Examples.hostSin maxBounces
                Examples.largeRing 0
                (initialState Examples.zero2 Examples.down)))) = true.
Proof.
  repeat split; vm_compute; reflexivity.
Qed.

(** C5: the code departs from the claim.  [closedBox] is a closed ring of
    four mirrors, the sides of the square from [(50,250)] to [(150,350)],
    each facing inwards, around the light at [(100,300)].  The ray from
    the light along [+x] meets the right side in its middle, at
    [(150,300)] after 50 units ([t = 50], [u = 0.5]), against its normal
    [(-1, 0)]; it can never escape, and the claim has the trace end after
    exactly 10 segments.  The source computes [t = -50], [u = -0.5] for
    that side ([lineIntersect] negates the solution), finds no hit in the
    first iteration, and the trace is the one segment of length 1000 that
    leaves the box through the mirror, for each wavelength. *)
Theorem closedBox_ray_escapes :
  let origin := vec 100 300 in
  let dir := vec 1 0 in
  let sides :=
    map (fun o =>
           let seg := getMirrorSegment Examples.boxCos Examples.boxSin o in
           (seg_p1 seg, seg_p2 seg))
      [Examples.rightWall; Examples.leftWall; Examples.upperWall;
       Examples.lowerWall] in
  let right :=
    getMirrorSegment Examples.boxCos Examples.boxSin Examples.rightWall in
  sides = [(vec 150 250, vec 150 350); (vec 50 350, vec 50 250);
           (vec 50 250, vec 150 250); (vec 150 350, vec 50 350)]
  /\ forallb isMirror
       [Examples.rightWall; Examples.leftWall; Examples.upperWall;
        Examples.lowerWall] = true
  /\ rayPoint origin dir 50 = vec 150 300
  /\ segmentPoint (seg_p1 right) (seg_p2 right) 0.5 = vec 150 300
  /\ (dot dir (seg_normal right) <? 0) = true
  /\ li_t origin dir (seg_p1 right) (seg_p2 right) = -50
  /\ li_u origin dir (seg_p1 right) (seg_p2 right) = -0.5
  /\ findHit Examples.boxCos Examples.boxSin Examples.closedBox origin dir
     = noHit
  /\ traceIterations Examples.boxCos Examples.boxSin origin dir 0
       Examples.closedBox = 1%nat
  /\ traceRay Examples.boxCos Examples.boxSin origin dir 0 Examples.closedBox
     = [{| start := vec 100 300; seg_end := vec 1100 300;
           color := Some "red"%string |}]
  /\ computeRays Examples.boxCos Examples.boxSin Examples.closedBox
     = map (fun c => {| start := vec 100 300; seg_end := vec 1100 300;
                        color := Some c |}) COLORS.
Proof.
  repeat split; vm_compute; reflexivity.
Qed.

(** C10.  For every origin, direction, wavelength index and obstacle
    list, the first iteration appends exactly one segment, so the trace
    is not empty, and its first segment starts at the initial origin. *)
Theorem traceRay_first_segment :
  forall (Math_cos Math_sin : float -> float)
         (initialOrigin initialDir : Vector2 float) (colorIndex : nat)
         (objects : list OpticObject),
    (exists first rest,
        traceRay Math_cos Math_sin initialOrigin initialDir colorIndex objects
        = first :: rest
        /\ start first = initialOrigin)
    /\ (exists first,
          segments (stateOf (bounceStep Math_cos Math_sin objects colorIndex
                               (initialState initialOrigin initialDir)))
          = [first]
          /\ (first = hitSegment colorIndex
                        (initialState initialOrigin initialDir)
                        (findHit Math_cos Math_sin objects initialOrigin
                           (normalize initialDir))
              \/ first = finalSegment colorIndex
                           (initialState initialOrigin initialDir))).
Proof.
  intros Math_cos Math_sin initialOrigin initialDir colorIndex objects.
  set (st0 := initialState initialOrigin initialDir).
  set (near := findHit Math_cos Math_sin objects initialOrigin
                 (normalize initialDir)).
  assert (Hbudget : (0 <? maxLength - totalLength st0) = true)
    by reflexivity.
  assert (Hfirst : exists first,
             segments (stateOf (bounceStep Math_cos Math_sin objects
                                  colorIndex st0)) = [first]
             /\ start first = initialOrigin
             /\ (first = hitSegment colorIndex st0 near
                 \/ first = finalSegment colorIndex st0)).
  { unfold bounceStep. cbn [origin dir st0 initialState]. fold near. fold st0.
    assert (Hesc : exists first,
               segments (stateOf (Break (escape colorIndex st0))) = [first]
               /\ start first = initialOrigin
               /\ (first = hitSegment colorIndex st0 near
                   \/ first = finalSegment colorIndex st0)).
    { exists (finalSegment colorIndex st0). cbn [stateOf].
      rewrite escape_segments, Hbudget. auto. }
    destruct (hit near) as [h |]; [| exact Hesc].
    destruct (minT near <? infinity); [| exact Hesc].
    exists (hitSegment colorIndex st0 near).
    split; [apply advance_state | auto]. }
  destruct Hfirst as (first & Hseg & Hstart & Hwhich).
  split; [| exists first; auto].
  unfold traceRay, maxBounces. fold st0. rewrite bounceLoop_S.
  destruct (bounceStep Math_cos Math_sin objects colorIndex st0)
    as [st1 | st1]; cbn [stateOf] in Hseg.
  - destruct (bounceLoop_appends Math_cos Math_sin 9 objects colorIndex st1)
      as (more & Hmore & _).
    destruct (bounceLoop Math_cos Math_sin 9 objects colorIndex st1)
      as [k final].
    cbn [snd] in *. rewrite Hmore, Hseg. exists first, more. auto.
  - cbn [snd]. rewrite Hseg. exists first, []. auto.
Qed.

End Termination.

(* ================================================================== *)
(** ** Which obstacles take part (C6) *)

Section Participants.
Variables Math_cos Math_sin : float -> float.
Local Open Scope float_scope.

Lemma filter_filter_weaker (A : Type) (p q : A -> bool) (l : list A) :
  (forall a, p a = true -> q a = true) ->
  filter p (filter q l) = filter p l.
Proof.
  intros Hpq. induction l as [| a l IH]; [reflexivity |]. cbn.
  destruct (q a) eqn:Hq; cbn.
  - rewrite IH. reflexivity.
  - destruct (p a) eqn:Hp; [| exact IH].
    rewrite (Hpq a Hp) in Hq. discriminate.
Qed.

Lemma findHit_participants (objects : list OpticObject)
  (origin dir : Vector2 float) :
  findHit Math_cos Math_sin (filter participates objects) origin dir
  = findHit Math_cos Math_sin objects origin dir.
Proof.
  unfold findHit.
  rewrite !filter_filter_weaker; [reflexivity | |];
    intros o H; unfold participates; rewrite H;
    first [reflexivity | apply orb_true_r].
Qed.

Lemma bounceStep_participants (objects : list OpticObject)
  (colorIndex : nat) (st : TraceState) :
  bounceStep Math_cos Math_sin (filter participates objects) colorIndex st
  = bounceStep Math_cos Math_sin objects colorIndex st.
Proof. unfold bounceStep. rewrite findHit_participants. reflexivity. Qed.

Lemma bounceLoop_participants (fuel : nat) (objects : list OpticObject)
  (colorIndex : nat) (st : TraceState) :
  bounceLoop Math_cos Math_sin fuel (filter participates objects)
    colorIndex st
  = bounceLoop Math_cos Math_sin fuel objects colorIndex st.
Proof.
  revert st. induction fuel as [| fuel IH]; intros st; [reflexivity |].
  rewrite !bounceLoop_S, bounceStep_participants.
  destruct (bounceStep Math_cos Math_sin objects colorIndex st) as [st' | st'];
    [rewrite IH |]; reflexivity.
Qed.

End Participants.

(** C6.  An obstacle takes part in a trace exactly when it is a mirror
    whose id is neither ['light1'] nor ['target1'], or a prism; lights and
    targets never do.  The nearest hit of every iteration, and so the
    whole trace, is the same when every other obstacle is removed from the
    scene. *)
Theorem only_mirrors_and_prisms_intersect :
  (forall o : OpticObject,
      participates o =
      match type o with
      | Mirror => negb (String.eqb (id o) "light1")
                  && negb (String.eqb (id o) "target1")
      | Prism => true
      | Light | Target => false
      end)
  /\ (forall (Math_cos Math_sin : float -> float)
             (objects : list OpticObject) (origin dir : Vector2 float),
        findHit Math_cos Math_sin objects origin dir
        = findHit Math_cos Math_sin (filter participates objects) origin dir)
  /\ (forall (Math_cos Math_sin : float -> float)
             (initialOrigin initialDir : Vector2 float) (colorIndex : nat)
             (objects : list OpticObject),
        traceRay Math_cos Math_sin initialOrigin initialDir colorIndex objects
        = traceRay Math_cos Math_sin initialOrigin initialDir colorIndex
            (filter participates objects)).
Proof.
  split; [| split].
  - intros o. unfold participates, isMirror, isPrism.
    destruct (type o); cbn; try reflexivity.
    apply orb_false_r.
  - intros. symmetry. apply findHit_participants.
  - intros. unfold traceRay. rewrite bounceLoop_participants. reflexivity.
Qed.

(* ================================================================== *)
(** ** The solved flag (C7) *)

Section Solved.
Local Open Scope float_scope.

(** C7.  After the scene has been set to [objects], if [target] is the
    target obstacle the App finds in it, the solved flag is true exactly
    when some segment of the aggregated trace output has its end point
    [end] strictly within [target.size/2 + 5] of the target's centre,
    compared as [dx*dx + dy*dy < (target.size/2 + 5)^2]. *)
Theorem solved_iff_segment_reaches_target :
  forall (Math_cos Math_sin : float -> float) (newObjects : list OpticObject)
         (st : AppState) (target : OpticObject),
    find isTarget newObjects = Some target ->
    objects (setObjects Math_cos Math_sin newObjects st) = newObjects
    /\ (solved (setObjects Math_cos Math_sin newObjects st) = true <->
        exists seg : Segment,
          In seg (computeRays Math_cos Math_sin newObjects)
          /\ let dx := x (seg_end seg) - x (position target) in
             let dy := y (seg_end seg) - y (position target) in
             (dx * dx + dy * dy
              <? (size target / 2 + 5) * (size target / 2 + 5)) = true).
Proof.
  intros Math_cos Math_sin newObjects st target Hfind.
  split; [reflexivity |].
  unfold setObjects, solvedEffect; cbn [solved]. rewrite Hfind.
  rewrite existsb_exists. reflexivity.
Qed.

(** The target at the far end of the unobstructed ray: solved. *)
Lemma solved_iff_segment_reaches_target_witness :
  solved (setObjects Examples.hostCos Examples.hostSin Examples.solvedScene
            {| objects := Examples.puzzle1; solved := false |}) = true
  /\ exists seg : Segment,
       In seg (computeRays Examples.hostCos Examples.hostSin
                 Examples.solvedScene)
       /\ let dx := x (seg_end seg) - x (position Examples.targetAtEnd) in
          let dy := y (seg_end seg) - y (position Examples.targetAtEnd) in
          (dx * dx + dy * dy
           <? (size Examples.targetAtEnd / 2 + 5)
              * (size Examples.targetAtEnd / 2 + 5)) = true.
Proof.
  split; [vm_compute; reflexivity |].
  apply (proj2 (solved_iff_segment_reaches_target
                  Examples.hostCos Examples.hostSin Examples.solvedScene
                  {| objects := Examples.puzzle1; solved := false |}
                  Examples.targetAtEnd eq_refl)).
  vm_compute; reflexivity.
Defined.

(** The starting scene is not solved, and a scene without a target
    leaves the flag as it was. *)
Lemma solved_examples :
  solved (setObjects Examples.hostCos Examples.hostSin Examples.puzzle1
            {| objects := []; solved := true |}) = false
  /\ (forall b : bool,
        solved (setObjects Examples.hostCos Examples.hostSin
                  [Examples.light1] {| objects := []; solved := b |}) = b).
Proof.
  split; [vm_compute; reflexivity | intros b; reflexivity].
Qed.

End Solved.

(* ================================================================== *)
(** ** Sample runs on binary64 *)

Section SampleRuns.
Local Open Scope float_scope.

(** Head-on incidence is refracted, a ray leaving through the back face
    and a grazing ray with [eta = 1.5] are not. *)
Example refract_runs :
  refract (vec 0 (-1)) (vec 0 1) 0.75 = Some (vec 0 (-0.5))
  /\ refract (vec 0 1) (vec 0 1) 0.75 = None
  /\ refract (vec 1 (-0.1)) (vec 0 1) 1.5 = None.
Proof. repeat split; vm_compute; reflexivity. Qed.

(** [reflect] and [normalize] on the 3-4-5 triangle. *)
Example vector_runs :
  normalize (vec 3 4) = vec 0.6 0.8
  /\ normalize (normalize (vec 3 4)) = normalize (vec 3 4)
  /\ reflect (vec 0.6 (-0.8)) (vec 0 2) = vec 0.6 0.8
  /\ norm (reflect (vec 0.6 (-0.8)) (vec 0 2)) = 1.
Proof. repeat split; vm_compute; reflexivity. Qed.

(** The segment of [farMirror] and the ray sent from the origin along
    [(0,-1)]: the source computes [t = 1000], [u = 0.5]; a horizontal ray
    is parallel to it. *)
Example lineIntersect_runs :
  lineIntersect Examples.zero2 Examples.down (vec 20 1000) (vec 60 1000)
  = {| point := Some (vec 0 (-1000)); int_t := 1000; int_u := 0.5 |}
  /\ lineIntersect Examples.zero2 (vec 1 0) (vec 20 1000) (vec 60 1000)
     = noIntersection
  /\ getMirrorSegment Examples.hostCos Examples.hostSin
       (Examples.mirrorUp 40 1000)
     = {| seg_p1 := vec 20 1000; seg_p2 := vec 60 1000;
          seg_normal := vec 0 1 |}.
Proof. repeat split; vm_compute; reflexivity. Qed.

(** The ten segments of the small ring start at the origin and alternate
    between the two mirrors. *)
Example smallRing_first_segments :
  firstn 2 (traceRay Examples.hostCos Examples.hostSin Examples.zero2
              Examples.down 0 Examples.smallRing)
  = [ {| start := vec 0 0; seg_end := vec 0 (-100);
         color := Some "red"%string |};
      {| start := vec 0 (-99.900000000000006);
         seg_end := vec 0 0.19999999999998863;
         color := Some "red"%string |} ].
Proof. vm_compute; reflexivity. Qed.

End SampleRuns.

(* ================================================================== *)
(** ** The nearest hit, among the candidates *)

Section NearestAmongCandidates.
Variables Math_cos Math_sin : float -> float.
Local Open Scope float_scope.

Lemma SFltb_trans (a b c : spec_float) :
  SFltb a b = true -> SFltb b c = true -> SFltb a c = true.
Proof.
  unfold SFltb.
  destruct a as [sa | sa | | sa ma ea], b as [sb | sb | | sb mb eb],
           c as [sc | sc | | sc mc ec];
    try destruct sa; try destruct sb; try destruct sc; cbn;
    try discriminate; try reflexivity.
  - destruct (Z.compare ea eb) eqn:Eab, (Z.compare eb ec) eqn:Ebc; cbn;
      try discriminate;
      try (apply Z.compare_eq in Eab; subst);
      try (apply Z.compare_eq in Ebc; subst);
      try rewrite Z.compare_refl; try rewrite Eab; try rewrite Ebc; cbn; auto.
    + rewrite !Pos.compare_cont_spec; cbn.
      destruct (Pos.compare ma mb) eqn:Mab, (Pos.compare mb mc) eqn:Mbc; cbn;
        try discriminate.
      rewrite Pos.compare_gt_iff in Mab, Mbc.
      assert (H : Pos.compare ma mc = Gt) by (apply Pos.compare_gt_iff; lia).
      rewrite H. reflexivity.
    + rewrite Z.compare_gt_iff in Eab, Ebc.
      assert (H : Z.compare ea ec = Gt) by (apply Z.compare_gt_iff; lia).
      rewrite H. reflexivity.
  - destruct (Z.compare ea eb) eqn:Eab, (Z.compare eb ec) eqn:Ebc; cbn;
      try discriminate;
      try (apply Z.compare_eq in Eab; subst);
      try (apply Z.compare_eq in Ebc; subst);
      try rewrite Z.compare_refl; try rewrite Eab; try rewrite Ebc; cbn; auto.
    + rewrite !Pos.compare_cont_spec; cbn.
      destruct (Pos.compare ma mb) eqn:Mab, (Pos.compare mb mc) eqn:Mbc; cbn;
        try discriminate.
      rewrite Pos.compare_lt_iff in Mab, Mbc.
      assert (H : Pos.compare ma mc = Lt) by (apply Pos.compare_lt_iff; lia).
      rewrite H. reflexivity.
    + rewrite Z.compare_lt_iff in Eab, Ebc.
      assert (H : Z.compare ea ec = Lt) by (apply Z.compare_lt_iff; lia).
      rewrite H. reflexivity.
Qed.

(** [<] on binary64 is transitive and irreflexive. *)
Lemma ltb_trans (a b c : float) :
  (a <? b) = true -> (b <? c) = true -> (a <? c) = true.
Proof. rewrite !ltb_spec. apply SFltb_trans. Qed.

Lemma ltb_irrefl (a : float) : (a <? a) = false.
Proof.
  rewrite ltb_spec. unfold SFltb.
  destruct (Prim2SF a) as [s | s | | s m e]; try destruct s; cbn;
    try reflexivity;
    rewrite Z.compare_refl, Pos.compare_cont_spec, Pos.compare_refl;
    reflexivity.
Qed.

(** A returned point is the ray at the returned parameter. *)
Lemma lineIntersect_point (origin dir p1 p2 pt : Vector2 float) :
  point (lineIntersect origin dir p1 p2) = Some pt ->
  pt = add origin (scale (int_t (lineIntersect origin dir p1 p2)) dir).
Proof.
  unfold lineIntersect.
  destruct (Math_abs (li_denom dir p1 p2) <? 1e-6); [discriminate |].
  destruct ((0 <=? li_t origin dir p1 p2) && (0 <=? li_u origin dir p1 p2)
            && (li_u origin dir p1 p2 <=? 1)); [| discriminate].
  cbn. intros H. injection H as <-. reflexivity.
Qed.

(** The two loop bodies, through the candidates. *)
Lemma mirrorStep_candidate (origin dir : Vector2 float) (near : Nearest)
  (obj : OpticObject) :
  mirrorStep Math_cos Math_sin origin dir near obj =
  match mirrorCandidate Math_cos Math_sin origin dir obj with
  | Some t =>
      if t <? minT near then mirrorHit Math_cos Math_sin origin dir obj t
      else near
  | None => near
  end.
Proof.
  unfold mirrorStep, mirrorCandidate, mirrorHit.
  set (seg := getMirrorSegment Math_cos Math_sin obj).
  pose proof (lineIntersect_point origin dir (seg_p1 seg) (seg_p2 seg)) as Hpt.
  destruct (point (lineIntersect origin dir (seg_p1 seg) (seg_p2 seg)))
    as [pt |]; [| reflexivity].
  rewrite (Hpt pt eq_refl).
  set (t := int_t (lineIntersect origin dir (seg_p1 seg) (seg_p2 seg))).
  destruct (0.01 <? t), (dot dir (seg_normal seg) <? 0); cbn [andb];
    destruct (t <? minT near); reflexivity.
Qed.

Lemma prismStep_candidate (origin dir : Vector2 float) (near : Nearest)
  (obj : OpticObject) :
  prismStep origin dir near obj =
  match prismCandidate origin dir obj with
  | Some t => if t <? minT near then prismHit origin dir obj t else near
  | None => near
  end.
Proof.
  unfold prismStep, prismCandidate, prismHit, radialNormal.
  destruct (prism_disc origin dir obj <? 0); [reflexivity |].
  destruct (0.01 <? prismRoot origin dir obj); cbn [andb];
    [| reflexivity].
  destruct (dot dir _ <? 0); cbn [andb];
    destruct (prismRoot origin dir obj <? minT near); reflexivity.
Qed.

(** A pass over a list of obstacles that keeps the nearest candidate. *)
Section Scan.
Variable cand : OpticObject -> option float.
Variable mk : OpticObject -> float -> Nearest.
Variable step : Nearest -> OpticObject -> Nearest.
Hypothesis mk_minT : forall o t, minT (mk o t) = t.
Hypothesis mk_hit : forall o t, hit (mk o t) <> None.
Hypothesis step_eq :
  forall near obj,
    step near obj =
    match cand obj with
    | Some t => if t <? minT near then mk obj t else near
    | None => near
    end.

Lemma scan_keeps_below (objs : list OpticObject) (near : Nearest) (t : float) :
  (t <? minT near) = false -> (t <? minT (fold_left step objs near)) = false.
Proof.
  revert near. induction objs as [| o objs IH]; intros near Hlow;
    [exact Hlow |].
  cbn [fold_left]. apply IH. rewrite step_eq.
  destruct (cand o) as [t' |]; [| exact Hlow].
  destruct (t' <? minT near) eqn:Hlt; [| exact Hlow].
  rewrite mk_minT. destruct (t <? t') eqn:Htt'; [| reflexivity].
  rewrite (ltb_trans _ _ _ Htt' Hlt) in Hlow. discriminate.
Qed.

Lemma scan_nearest (objs : list OpticObject) (near : Nearest)
  (obj : OpticObject) (t : float) :
  In obj objs -> cand obj = Some t ->
  (t <? minT (fold_left step objs near)) = false.
Proof.
  revert near. induction objs as [| o objs IH]; intros near Hin Hc;
    [contradiction |].
  cbn [fold_left]. destruct Hin as [-> | Hin]; [| apply IH; assumption].
  apply scan_keeps_below. rewrite step_eq, Hc.
  destruct (t <? minT near) eqn:Hlt; [| exact Hlt].
  rewrite mk_minT. apply ltb_irrefl.
Qed.

Lemma scan_keeps_hit (objs : list OpticObject) (near : Nearest) :
  hit near <> None -> hit (fold_left step objs near) <> None.
Proof.
  revert near. induction objs as [| o objs IH]; intros near Hh; [exact Hh |].
  cbn [fold_left]. apply IH. rewrite step_eq.
  destruct (cand o) as [t' |]; [| exact Hh].
  destruct (t' <? minT near); [apply mk_hit | exact Hh].
Qed.

(** Without a hit so far, [minT] is still [Infinity]. *)
Definition unsetAtInfinity (near : Nearest) : Prop :=
  hit near = None -> near = noHit.

Lemma scan_unset (objs : list OpticObject) (near : Nearest) :
  unsetAtInfinity near -> unsetAtInfinity (fold_left step objs near).
Proof.
  revert near. induction objs as [| o objs IH]; intros near Hu; [exact Hu |].
  cbn [fold_left]. apply IH. rewrite step_eq.
  destruct (cand o) as [t' |]; [| exact Hu].
  destruct (t' <? minT near); [| exact Hu].
  intros H. destruct (mk_hit _ _ H).
Qed.

Lemma scan_finds (objs : list OpticObject) (near : Nearest)
  (obj : OpticObject) (t : float) :
  unsetAtInfinity near ->
  In obj objs -> cand obj = Some t -> (t <? infinity) = true ->
  hit (fold_left step objs near) <> None.
Proof.
  revert near. induction objs as [| o objs IH]; intros near Hu Hin Hc Hfin;
    [contradiction |].
  cbn [fold_left]. destruct Hin as [-> | Hin].
  - apply scan_keeps_hit. rewrite step_eq, Hc.
    destruct (t <? minT near) eqn:Hlt; [apply mk_hit |].
    intros Hnone. rewrite (Hu Hnone) in Hlt. cbn [minT noHit] in Hlt.
    rewrite Hfin in Hlt. discriminate.
  - apply (IH _ (scan_unset [o] near Hu) Hin Hc Hfin).
Qed.

(** The result is the state the pass started from, or the record of one
    of the candidates. *)
Lemma scan_provenance (objs : list OpticObject) (near : Nearest) :
  fold_left step objs near = near
  \/ exists obj t,
       In obj objs /\ cand obj = Some t
       /\ fold_left step objs near = mk obj t.
Proof.
  revert near. induction objs as [| o objs IH]; intros near;
    [left; reflexivity |].
  cbn [fold_left].
  destruct (IH (step near o)) as [Hsame | (obj & t & Hin & Hc & Hres)].
  - rewrite Hsame, step_eq.
    destruct (cand o) as [t' |] eqn:Hc; [| left; reflexivity].
    destruct (t' <? minT near); [| left; reflexivity].
    right. exists o, t'. split; [left; reflexivity | auto].
  - right. exists obj, t. split; [right; exact Hin | auto].
Qed.

End Scan.

End NearestAmongCandidates.

Section FindHitFacts.
Variables Math_cos Math_sin : float -> float.
Local Open Scope float_scope.

Lemma mirrorCandidate_advance (origin dir : Vector2 float)
  (obj : OpticObject) (t : float) :
  mirrorCandidate Math_cos Math_sin origin dir obj = Some t ->
  (0.01 <? t) = true.
Proof.
  unfold mirrorCandidate.
  destruct (point _); [| discriminate].
  destruct (0.01 <? _) eqn:H; cbn [andb]; [| discriminate].
  destruct (dot dir _ <? 0); [| discriminate].
  intros E. injection E as <-. exact H.
Qed.

Lemma prismCandidate_advance (origin dir : Vector2 float)
  (obj : OpticObject) (t : float) :
  prismCandidate origin dir obj = Some t -> (0.01 <? t) = true.
Proof.
  unfold prismCandidate.
  destruct (prism_disc origin dir obj <? 0); [discriminate |].
  destruct (0.01 <? _) eqn:H; cbn [andb]; [| discriminate].
  destruct (dot dir _ <? 0); [| discriminate].
  intros E. injection E as <-. exact H.
Qed.

Lemma mirrorPass_facts (origin dir : Vector2 float) :
  (forall o t, minT (mirrorHit Math_cos Math_sin origin dir o t) = t)
  /\ (forall o t, hit (mirrorHit Math_cos Math_sin origin dir o t) <> None)
  /\ (forall o t, minT (prismHit origin dir o t) = t)
  /\ (forall o t, hit (prismHit origin dir o t) <> None)
  /\ unsetAtInfinity noHit.
Proof.
  repeat split; try reflexivity; try discriminate.
Qed.

(** The nearest hit is at least as near as every candidate of the scene,
    and a candidate at a finite distance makes the iteration find a hit. *)
Lemma findHit_below_candidates (objects : list OpticObject)
  (origin dir : Vector2 float) (obj : OpticObject) (t : float) :
  In obj objects ->
  candidateAt Math_cos Math_sin origin dir obj t ->
  (t <? minT (findHit Math_cos Math_sin objects origin dir)) = false
  /\ ((t <? infinity) = true ->
      hit (findHit Math_cos Math_sin objects origin dir) <> None).
Proof.
  intros Hin Hcand. unfold findHit.
  destruct (mirrorPass_facts origin dir) as (Hm1 & Hm2 & Hp1 & Hp2 & Hu).
  set (mstep := mirrorStep Math_cos Math_sin origin dir).
  set (near1 := fold_left mstep (filter isMirror objects) noHit).
  assert (Hu1 : unsetAtInfinity near1).
  { apply (scan_unset _ (mirrorHit Math_cos Math_sin origin dir) mstep Hm2
             (mirrorStep_candidate Math_cos Math_sin origin dir)), Hu. }
  destruct Hcand as [[Hty Hc] | [Hty Hc]].
  - assert (Hin' : In obj (filter isMirror objects))
      by (apply filter_In; auto).
    split.
    + apply (scan_keeps_below _ (prismHit origin dir) _ Hp1
               (prismStep_candidate origin dir)).
      apply (scan_nearest _ (mirrorHit Math_cos Math_sin origin dir) mstep Hm1
               (mirrorStep_candidate Math_cos Math_sin origin dir)
               _ _ obj t Hin' Hc).
    + intros Hfin.
      apply (scan_keeps_hit _ (prismHit origin dir) _ Hp2
               (prismStep_candidate origin dir)).
      apply (scan_finds _ (mirrorHit Math_cos Math_sin origin dir) mstep Hm2
               (mirrorStep_candidate Math_cos Math_sin origin dir)
               _ _ obj t Hu Hin' Hc Hfin).
  - assert (Hin' : In obj (filter isPrism objects))
      by (apply filter_In; auto).
    split.
    + apply (scan_nearest _ (prismHit origin dir) _ Hp1
               (prismStep_candidate origin dir) _ _ obj t Hin' Hc).
    + intros Hfin.
      apply (scan_finds _ (prismHit origin dir) _ Hp2
               (prismStep_candidate origin dir) _ _ obj t Hu1 Hin' Hc Hfin).
Qed.

(** A recorded hit is the record of a candidate of the scene. *)
Lemma findHit_provenance (objects : list OpticObject)
  (origin dir : Vector2 float) :
  findHit Math_cos Math_sin objects origin dir = noHit
  \/ exists obj t,
       In obj objects
       /\ ((isMirror obj = true
            /\ mirrorCandidate Math_cos Math_sin origin dir obj = Some t
            /\ findHit Math_cos Math_sin objects origin dir
               = mirrorHit Math_cos Math_sin origin dir obj t)
           \/ (isPrism obj = true
               /\ prismCandidate origin dir obj = Some t
               /\ findHit Math_cos Math_sin objects origin dir
                  = prismHit origin dir obj t)).
Proof.
  unfold findHit.
  set (mstep := mirrorStep Math_cos Math_sin origin dir).
  set (near1 := fold_left mstep (filter isMirror objects) noHit).
  destruct (scan_provenance _ (prismHit origin dir) _
              (prismStep_candidate origin dir)
              (filter isPrism objects) near1)
    as [Hsame | (obj & t & Hin & Hc & Hres)].
  - rewrite Hsame.
    destruct (scan_provenance _ (mirrorHit Math_cos Math_sin origin dir) mstep
                (mirrorStep_candidate Math_cos Math_sin origin dir)
                (filter isMirror objects) noHit)
      as [Hsame1 | (obj & t & Hin & Hc & Hres)].
    + left. exact Hsame1.
    + right. exists obj, t. apply filter_In in Hin. destruct Hin as [Hin Hty].
      split; [exact Hin | left; auto].
  - right. exists obj, t. apply filter_In in Hin. destruct Hin as [Hin Hty].
    split; [exact Hin | right; auto].
Qed.

End FindHitFacts.

(* ================================================================== *)
(** ** Shape of a trace: iterations, colours, continuity *)

Section TraceShapeFacts.
Variables Math_cos Math_sin : float -> float.
Local Open Scope float_scope.

(** The loop goes on only after a hit; the state it goes on with. *)
Lemma bounceStep_continue (objects : list OpticObject) (colorIndex : nat)
  (st st' : TraceState) :
  bounceStep Math_cos Math_sin objects colorIndex st = Continue st' ->
  exists h,
    let near := findHit Math_cos Math_sin objects (origin st) (dir st) in
    hit near = Some h
    /\ segments st' = segments st ++ [hitSegment colorIndex st near]
    /\ origin st' = snd (bounce colorIndex (dir st) h)
    /\ (maxLength <? totalLength st') = false.
Proof.
  unfold bounceStep.
  set (near := findHit Math_cos Math_sin objects (origin st) (dir st)).
  destruct (hit near) as [h |]; [| discriminate].
  destruct (minT near <? infinity); [| discriminate].
  intros Hadv. exists h. cbn zeta. split; [reflexivity |].
  pose proof (advance_state colorIndex st near h) as [Hseg _].
  pose proof (advance_break colorIndex st near h) as Hbr.
  rewrite Hadv in Hseg, Hbr. cbn [stateOf] in Hseg, Hbr.
  split; [exact Hseg |].
  destruct (maxLength <? totalLength st') eqn:Hlen; [discriminate |].
  split; [| reflexivity].
  unfold advance in Hadv.
  destruct (bounce colorIndex (dir st) h) as [dir' origin'].
  destruct (maxLength <? _) in Hadv; [discriminate |].
  injection Hadv as <-. reflexivity.
Qed.

(** What an iteration appends: nothing, the hit segment or the final
    segment; each starts at the current origin and has the colour of the
    wavelength. *)
Lemma bounceStep_emits (objects : list OpticObject) (colorIndex : nat)
  (st : TraceState) :
  exists more,
    segments (stateOf (bounceStep Math_cos Math_sin objects colorIndex st))
    = segments st ++ more
    /\ (more = []
        \/ exists seg, more = [seg] /\ start seg = origin st
                       /\ color seg = paletteColor colorIndex).
Proof.
  unfold bounceStep.
  set (near := findHit Math_cos Math_sin objects (origin st) (dir st)).
  assert (Hesc : exists more,
             segments (stateOf (Break (escape colorIndex st)))
             = segments st ++ more
             /\ (more = []
                 \/ exists seg, more = [seg] /\ start seg = origin st
                                /\ color seg = paletteColor colorIndex)).
  { cbn [stateOf]. rewrite escape_segments.
    destruct (0 <? maxLength - totalLength st); eexists;
      (split; [reflexivity |]); [right | left; reflexivity].
    eexists. split; [reflexivity | split; reflexivity]. }
  destruct (hit near) as [h |]; [| exact Hesc].
  destruct (minT near <? infinity); [| exact Hesc].
  exists [hitSegment colorIndex st near].
  split; [apply advance_state |].
  right. eexists. split; [reflexivity | split; reflexivity].
Qed.

(** Every iteration but the last appends exactly one segment. *)
Lemma bounceLoop_count (fuel : nat) (objects : list OpticObject)
  (colorIndex : nat) (st : TraceState) :
  let run := bounceLoop Math_cos Math_sin fuel objects colorIndex st in
  (List.length (segments st) + fst run
   <= List.length (segments (snd run)) + 1)%nat
  /\ (fuel <> O -> 1 <= fst run)%nat.
Proof.
  revert st. induction fuel as [| fuel IH]; intros st; cbn zeta.
  - cbn. split; [lia | intros H; contradiction].
  - rewrite bounceLoop_S.
    destruct (bounceStep Math_cos Math_sin objects colorIndex st)
      as [st' | st'] eqn:Hstep.
    + destruct (bounceStep_continue _ _ _ _ Hstep) as (h & _ & Hseg & _).
      destruct (IH st') as [Hcount _].
      destruct (bounceLoop Math_cos Math_sin fuel objects colorIndex st')
        as [k final].
      cbn [fst snd] in *. rewrite Hseg, length_app in Hcount. cbn in Hcount.
      split; lia.
    + destruct (bounceStep_emits objects colorIndex st)
        as (more & Hseg & _).
      rewrite Hstep in Hseg. cbn [stateOf] in Hseg. cbn [fst snd].
      rewrite Hseg, length_app. split; lia.
Qed.

(** The segments a run adds all have the colour of the wavelength. *)
Lemma bounceLoop_colors (fuel : nat) (objects : list OpticObject)
  (colorIndex : nat) (st : TraceState) :
  Forall (fun seg => color seg = paletteColor colorIndex) (segments st) ->
  Forall (fun seg => color seg = paletteColor colorIndex)
    (segments (snd (bounceLoop Math_cos Math_sin fuel objects colorIndex st))).
Proof.
  revert st. induction fuel as [| fuel IH]; intros st Hall; [exact Hall |].
  rewrite bounceLoop_S.
  destruct (bounceStep_emits objects colorIndex st) as (more & Hseg & Hmore).
  assert (Hall' : Forall (fun seg => color seg = paletteColor colorIndex)
                    (segments st ++ more)).
  { apply Forall_app. split; [exact Hall |].
    destruct Hmore as [-> | (seg & -> & _ & Hc)]; [constructor |].
    constructor; [exact Hc | constructor]. }
  rewrite <- Hseg in Hall'.
  destruct (bounceStep Math_cos Math_sin objects colorIndex st)
    as [st' | st']; cbn [stateOf] in Hall'.
  - specialize (IH st' Hall').
    destruct (bounceLoop Math_cos Math_sin fuel objects colorIndex st')
      as [k final]. exact IH.
  - exact Hall'.
Qed.

(** The first iteration of a trace appends a segment. *)
Lemma traceRay_length_pos (initialOrigin initialDir : Vector2 float)
  (colorIndex : nat) (objects : list OpticObject) :
  (1 <= List.length (traceRay Math_cos Math_sin initialOrigin initialDir
                       colorIndex objects))%nat.
Proof.
  unfold traceRay, maxBounces. rewrite bounceLoop_S.
  set (st0 := initialState initialOrigin initialDir).
  assert (Hfirst : (1 <= List.length (segments (stateOf
             (bounceStep Math_cos Math_sin objects colorIndex st0))))%nat).
  { unfold bounceStep.
    set (near := findHit Math_cos Math_sin objects (origin st0) (dir st0)).
    assert (Hesc : (1 <= List.length (segments (stateOf
               (Break (escape colorIndex st0)))))%nat).
    { cbn [stateOf]. rewrite escape_segments.
      replace (0 <? maxLength - totalLength st0) with true by reflexivity.
      rewrite length_app. cbn. lia. }
    destruct (hit near) as [h |]; [| exact Hesc].
    destruct (minT near <? infinity); [| exact Hesc].
    destruct (advance_state colorIndex st0 near h) as [Hseg _].
    rewrite Hseg, length_app. cbn. lia. }
  destruct (bounceStep Math_cos Math_sin objects colorIndex st0)
    as [st1 | st1]; cbn [stateOf] in Hfirst; [| exact Hfirst].
  destruct (bounceLoop_appends Math_cos Math_sin 9 objects colorIndex st1)
    as (more & Hmore & _).
  destruct (bounceLoop Math_cos Math_sin 9 objects colorIndex st1)
    as [k final].
  cbn [snd] in *. rewrite Hmore, length_app. lia.
Qed.

End TraceShapeFacts.

Section TraceContinuity.
Variables Math_cos Math_sin : float -> float.
Local Open Scope float_scope.





End TraceContinuity.

(* ================================================================== *)
(** ** Properties of the tracer beyond the spec's sentences *)

Section TracerProperties.
Local Open Scope float_scope.

(** X1.  The hit an iteration records is at least as near as every
    candidate of the scene: for an obstacle [obj] of the scene that one of
    the two passes looks at and that can be hit at [t], [t < minT] fails
    for the recorded nearest hit; and when [t] is below [Infinity] the
    iteration does record a hit. *)
Theorem findHit_nearest_candidate :
  forall (Math_cos Math_sin : float -> float) (objects : list OpticObject)
         (origin dir : Vector2 float) (obj : OpticObject) (t : float),
    In obj objects ->
    candidateAt Math_cos Math_sin origin dir obj t ->
    (t <? minT (findHit Math_cos Math_sin objects origin dir)) = false
    /\ ((t <? infinity) = true ->
        hit (findHit Math_cos Math_sin objects origin dir) <> None).
Proof.
  intros Math_cos Math_sin objects origin dir obj t Hin Hcand.
  exact (findHit_below_candidates Math_cos Math_sin objects origin dir obj t
           Hin Hcand).
Qed.

(** In the small ring the facing-up mirror can be hit at 100; the hit
    found is not farther. *)
Lemma findHit_nearest_candidate_witness :
  (100 <? minT (findHit Examples.hostCos Examples.hostSin Examples.smallRing
                  Examples.zero2 Examples.down)) = false
  /\ hit (findHit Examples.hostCos Examples.hostSin Examples.smallRing
            Examples.zero2 Examples.down) <> None.
Proof.
  destruct (findHit_nearest_candidate Examples.hostCos Examples.hostSin
              Examples.smallRing Examples.zero2 Examples.down
              (Examples.mirrorUp 40 100) 100
              (or_introl eq_refl)
              (or_introl (conj eq_refl eq_refl))) as [Hnear Hhit].
  split; [exact Hnear | exact (Hhit eq_refl)].
Defined.

(** X2.  An iteration records either no hit at all ([minT] still
    [Infinity]) or the hit of one obstacle of the scene, a mirror of the
    mirror pass or a prism of the prism pass, at a parameter [t] with
    [0.01 < t < Infinity]; the hit point is [origin + t*dir]. *)
Theorem findHit_hit_from_scene :
  forall (Math_cos Math_sin : float -> float) (objects : list OpticObject)
         (origin dir : Vector2 float),
    findHit Math_cos Math_sin objects origin dir = noHit
    \/ exists obj t,
         In obj objects
         /\ (0.01 <? t) = true /\ (t <? infinity) = true
         /\ ((isMirror obj = true
              /\ findHit Math_cos Math_sin objects origin dir
                 = {| minT := t;
                      hit := Some
                        {| hitNormal :=
                             seg_normal
                               (getMirrorSegment Math_cos Math_sin obj);
                           hitPoint := add origin (scale t dir);
                           hitType := hitMirror |} |})
             \/ (isPrism obj = true
                 /\ findHit Math_cos Math_sin objects origin dir
                    = {| minT := t;
                         hit := Some
                           {| hitNormal := radialNormal origin dir obj t;
                              hitPoint := add origin (scale t dir);
                              hitType := hitPrism |} |})).
Proof.
  intros Math_cos Math_sin objects origin dir.
  pose proof (findHit_finiteHit Math_cos Math_sin objects origin dir) as Hfin.
  destruct (findHit_provenance Math_cos Math_sin objects origin dir)
    as [Hno | (obj & t & Hin & Hwhich)]; [left; exact Hno |].
  right. exists obj, t. split; [exact Hin |].
  destruct Hwhich as [(Hty & Hc & Hres) | (Hty & Hc & Hres)];
    rewrite Hres in Hfin |- *.
  - split; [exact (mirrorCandidate_advance _ _ _ _ _ _ Hc) |].
    split; [apply Hfin; discriminate | left; auto].
  - split; [exact (prismCandidate_advance _ _ _ _ Hc) |].
    split; [apply Hfin; discriminate | right; auto].
Qed.

(** X3.  A trace runs at least one iteration, and every iteration except
    possibly the last one appends exactly one segment: the number of
    segments is the number of iterations, or one less. *)
Theorem traceRay_segments_per_iteration :
  forall (Math_cos Math_sin : float -> float)
         (initialOrigin initialDir : Vector2 float) (colorIndex : nat)
         (objects : list OpticObject),
    let iterations :=
      traceIterations Math_cos Math_sin initialOrigin initialDir colorIndex
        objects in
    let trace :=
      traceRay Math_cos Math_sin initialOrigin initialDir colorIndex objects in
    (1 <= iterations)%nat
    /\ (List.length trace = iterations
        \/ (List.length trace + 1)%nat = iterations).
Proof.
  intros Math_cos Math_sin initialOrigin initialDir colorIndex objects.
  cbn zeta. unfold traceIterations, traceRay.
  set (st0 := initialState initialOrigin initialDir).
  destruct (bounceLoop_count Math_cos Math_sin maxBounces objects colorIndex
              st0) as [Hlow Hpos].
  destruct (bounceLoop_appends Math_cos Math_sin maxBounces objects
              colorIndex st0) as (more & Hseg & Hup).
  rewrite Hseg in Hlow |- *. cbn [st0 initialState segments app] in *.
  split; [apply Hpos; discriminate | lia].
Qed.

(** X4.  Every segment of a trace carries [COLORS[colorIndex]], and every
    segment [computeRays] collects carries one of the seven palette
    colours. *)
Theorem segments_carry_palette_colors :
  (forall (Math_cos Math_sin : float -> float)
          (initialOrigin initialDir : Vector2 float) (colorIndex : nat)
          (objects : list OpticObject),
      Forall (fun seg => color seg = nth_error COLORS colorIndex)
        (traceRay Math_cos Math_sin initialOrigin initialDir colorIndex
           objects))
  /\ (forall (Math_cos Math_sin : float -> float)
             (objects : list OpticObject),
        Forall (fun seg => exists c, color seg = Some c /\ In c COLORS)
          (computeRays Math_cos Math_sin objects)).
Proof.
  assert (Htrace : forall Math_cos Math_sin initialOrigin initialDir
                          colorIndex objects,
             Forall (fun seg => color seg = nth_error COLORS colorIndex)
               (traceRay Math_cos Math_sin initialOrigin initialDir
                  colorIndex objects)).
  { intros. unfold traceRay.
    apply (bounceLoop_colors Math_cos Math_sin). constructor. }
  split; [exact Htrace |].
  intros Math_cos Math_sin objects. unfold computeRays.
  rewrite Forall_forall. intros seg Hin.
  apply in_flat_map in Hin. destruct Hin as (lt & _ & Hin).
  apply in_flat_map in Hin. destruct Hin as (index & Hidx & Hin).
  specialize (Htrace Math_cos Math_sin (position lt) (vec 1 0) index objects).
  rewrite Forall_forall in Htrace. rewrite (Htrace seg Hin).
  apply in_seq in Hidx.
  destruct (nth_error COLORS index) as [c |] eqn:Hc.
  - exists c. split; [reflexivity | exact (nth_error_In _ _ Hc)].
  - apply nth_error_None in Hc. cbn in Hc, Hidx. lia.
Qed.


End TracerProperties.

(* ================================================================== *)
(** ** The scene query driver *)

Section DriverProperties.
Local Open Scope float_scope.

Lemma flat_map_length_bounds (A B : Type) (f : A -> list B) (l : list A)
  (lo hi : nat) :
  (forall a, In a l -> (lo <= List.length (f a) <= hi)%nat) ->
  (lo * List.length l <= List.length (flat_map f l) <= hi * List.length l)%nat.
Proof.
  induction l as [| a l IH]; intros Hf; cbn [flat_map List.length].
  - lia.
  - rewrite length_app.
    pose proof (Hf a (or_introl eq_refl)) as Ha.
    assert (Hl : forall b, In b l -> (lo <= List.length (f b) <= hi)%nat)
      by (intros b Hb; apply Hf; right; exact Hb).
    specialize (IH Hl). lia.
Qed.

Lemma traceRay_length_bounds (Math_cos Math_sin : float -> float)
  (initialOrigin initialDir : Vector2 float) (colorIndex : nat)
  (objects : list OpticObject) :
  (1 <= List.length (traceRay Math_cos Math_sin initialOrigin initialDir
                       colorIndex objects) <= 10)%nat.
Proof.
  split; [apply traceRay_length_pos |].
  unfold traceRay.
  destruct (bounceLoop_appends Math_cos Math_sin maxBounces objects
              colorIndex (initialState initialOrigin initialDir))
    as (more & Hseg & Hlen).
  pose proof (bounceLoop_iterations Math_cos Math_sin maxBounces objects
                colorIndex (initialState initialOrigin initialDir)) as Hit.
  rewrite Hseg. cbn [initialState segments app]. unfold maxBounces in *. lia.
Qed.

Lemma computeRays_length (Math_cos Math_sin : float -> float)
  (objects : list OpticObject) :
  let lights := List.length (filter isLight objects) in
  (7 * lights <= List.length (computeRays Math_cos Math_sin objects)
   <= 70 * lights)%nat.
Proof.
  cbn zeta. unfold computeRays.
  apply flat_map_length_bounds. intros lt _.
  pose proof (flat_map_length_bounds _ _
                (fun index => traceRay Math_cos Math_sin (position lt)
                                (vec 1 0) index objects)
                (seq 0 (List.length COLORS)) 1 10
                (fun index _ => traceRay_length_bounds Math_cos Math_sin
                                  (position lt) (vec 1 0) index objects))
    as H.
  rewrite length_seq in H. cbn [COLORS List.length] in H |- *. lia.
Qed.

(** X6.  [computeRays] collects between 7 and 70 segments for every
    light of the scene (7 wavelengths, 1 to 10 segments each); it collects
    nothing exactly when the scene has no light. *)
Theorem computeRays_segments_per_light :
  forall (Math_cos Math_sin : float -> float) (objects : list OpticObject),
    let lights := List.length (filter isLight objects) in
    (7 * lights <= List.length (computeRays Math_cos Math_sin objects))%nat
    /\ (List.length (computeRays Math_cos Math_sin objects)
        <= 70 * lights)%nat
    /\ (computeRays Math_cos Math_sin objects = []
        <-> filter isLight objects = []).
Proof.
  intros Math_cos Math_sin objects. cbn zeta.
  pose proof (computeRays_length Math_cos Math_sin objects) as Hlen.
  cbn zeta in Hlen.
  split; [lia |]. split; [lia |].
  split; intros H.
  - rewrite H in Hlen. cbn in Hlen.
    destruct (filter isLight objects); [reflexivity | cbn in Hlen; lia].
  - rewrite H in Hlen. cbn in Hlen.
    destruct (computeRays Math_cos Math_sin objects);
      [reflexivity | cbn in Hlen; lia].
Qed.

(** X7.  A scene that has a target but no light is not solved, whatever
    the flag was before. *)
Theorem solved_needs_a_light :
  forall (Math_cos Math_sin : float -> float) (newObjects : list OpticObject)
         (st : AppState) (target : OpticObject),
    find isTarget newObjects = Some target ->
    filter isLight newObjects = [] ->
    solved (setObjects Math_cos Math_sin newObjects st) = false.
Proof.
  intros Math_cos Math_sin newObjects st target Hfind Hnone.
  unfold setObjects, solvedEffect, computeRays; cbn [solved].
  rewrite Hfind, Hnone. reflexivity.
Qed.

(** The target alone, after a solved scene. *)
Lemma solved_needs_a_light_witness :
  solved (setObjects Examples.hostCos Examples.hostSin
            [Examples.targetAtEnd]
            {| objects := Examples.solvedScene; solved := true |}) = false.
Proof.
  exact (solved_needs_a_light Examples.hostCos Examples.hostSin
           [Examples.targetAtEnd]
           {| objects := Examples.solvedScene; solved := true |}
           Examples.targetAtEnd eq_refl eq_refl).
Defined.

End DriverProperties.

(* ================================================================== *)
(** ** Physics in exact arithmetic *)

Section RealPhysics.
Local Open Scope R_scope.

(** A normalized vector has squared length 1, or is the zero vector. *)
Lemma normalize_sqr (v : Vector2 R) :
  dot (normalize v) (normalize v) = 1 \/ normalize v = vec 0 0.
Proof.
  destruct (Req_dec (norm v) 0) as [H0 | Hn].
  - right. apply normalize_zero_norm, H0.
  - left. pose proof (norm_normalize v Hn) as H1.
    pose proof (norm_sqr (normalize v)) as Hs. rewrite H1 in Hs.
    unfold dot; cbn. lra.
Qed.

Lemma norm_scale (k : R) (v : Vector2 R) :
  0 <= k -> norm (scale k v) = k * norm v.
Proof.
  intros Hk. unfold norm, scale; cbn.
  replace (k * x v * (k * x v) + k * y v * (k * y v))
    with (k * k * (x v * x v + y v * y v)) by ring.
  rewrite sqrt_mult_alt by nra. rewrite sqrt_square by exact Hk. reflexivity.
Qed.

Lemma normalize_scale (k : R) (v : Vector2 R) :
  0 < k -> normalize (scale k v) = normalize v.
Proof.
  intros Hk. pose proof (norm_nonneg v) as Hn.
  rewrite !normalize_real, (norm_scale k v (Rlt_le _ _ Hk)).
  destruct (Rlt_dec 0 (k * norm v)) as [H1 | H1],
           (Rlt_dec 0 (norm v)) as [H2 | H2]; try reflexivity.
  - unfold scale, norm in *; cbn in *. f_equal; field; split; lra.
  - exfalso. apply H2. nra.
  - exfalso. apply H1. nra.
Qed.

Lemma normalize_scale_neg (k : R) (v : Vector2 R) :
  k < 0 -> normalize (scale k v) = scale (-1) (normalize v).
Proof.
  intros Hk.
  replace (scale k v) with (scale (- k) (scale (-1) v))
    by (unfold scale; cbn; f_equal; ring).
  rewrite normalize_scale by lra.
  assert (Hn : norm (scale (-1) v) = norm v).
  { unfold norm, scale; cbn. f_equal. ring. }
  rewrite !normalize_real, Hn.
  destruct (Rlt_dec 0 (norm v)); unfold scale, norm in *; cbn in *; f_equal;
    try (field; lra); ring.
Qed.

Lemma reflect_dot (d n : Vector2 R) :
  dot (reflect d n) (normalize n) = - dot d (normalize n).
Proof.
  rewrite reflect_real.
  destruct (normalize_sqr n) as [H1 | H0].
  - unfold dot, sub, scale in *; cbn in *.
    set (a := x (normalize n)) in *. set (b := y (normalize n)) in *.
    transitivity ((x d * a + y d * b) * (1 - 2 * (a * a + b * b)));
      [ring | rewrite H1; ring].
  - rewrite H0. unfold dot, sub, scale; cbn. ring.
Qed.

Lemma reflect_involutive (d n : Vector2 R) : reflect (reflect d n) n = d.
Proof.
  rewrite (reflect_real (reflect d n) n), reflect_dot, reflect_real.
  destruct d as [dx dy]. unfold sub, scale, dot; cbn. f_equal; ring.
Qed.

Lemma reflect_norm_any (d n : Vector2 R) : norm (reflect d n) = norm d.
Proof.
  rewrite reflect_real.
  destruct (normalize_sqr n) as [H1 | H0].
  - unfold norm, sub, scale, dot in *; cbn in *. f_equal.
    set (a := x (normalize n)) in *. set (b := y (normalize n)) in *.
    transitivity (x d * x d + y d * y d
                  + 4 * (x d * a + y d * b) * (x d * a + y d * b)
                    * (a * a + b * b - 1)); [ring | rewrite H1; ring].
  - rewrite H0. unfold norm, sub, scale, dot; cbn. f_equal. ring.
Qed.

Lemma reflect_normal_scale (d n : Vector2 R) (k : R) :
  k <> 0 -> reflect d (scale k n) = reflect d n.
Proof.
  intros Hk. rewrite !reflect_real.
  destruct (Rlt_dec 0 k) as [Hpos | Hneg].
  - rewrite normalize_scale by exact Hpos. reflexivity.
  - rewrite normalize_scale_neg by lra.
    unfold sub, scale, dot; cbn. f_equal; ring.
Qed.







(** X8.  In exact arithmetic [normalize] returns a vector of length 1 for
    every vector of non-zero length, and it only depends on the direction:
    scaling the argument by [k > 0] does not change the result, scaling it
    by [k < 0] negates it. *)
Theorem normalize_unit_length_and_direction :
  (forall v : Vector2 R, norm v <> 0 -> norm (normalize v) = 1)
  /\ (forall (k : R) (v : Vector2 R),
        0 < k -> normalize (scale k v) = normalize v)
  /\ (forall (k : R) (v : Vector2 R),
        k < 0 -> normalize (scale k v) = scale (-1) (normalize v)).
Proof.
  split; [exact norm_normalize |].
  split; [exact normalize_scale | exact normalize_scale_neg].
Qed.

(** The vector [(3,4)] and its double. *)
Lemma normalize_unit_length_and_direction_witness :
  norm (normalize (vec 3 4 : Vector2 R)) = 1
  /\ normalize (scale 2 (vec 3 4 : Vector2 R)) = normalize (vec 3 4).
Proof.
  split.
  - apply (proj1 normalize_unit_length_and_direction).
    rewrite norm_3_4. lra.
  - apply (proj1 (proj2 normalize_unit_length_and_direction)). lra.
Defined.

(** X9.  In exact arithmetic, for every incident vector and every normal
    (also the zero normal, for which [reflect] is the identity): reflecting
    twice about the same normal gives the incident vector back, the
    component along the normalized normal changes sign, and the length is
    preserved. *)
Theorem reflect_involution_and_length :
  forall d n : Vector2 R,
    reflect (reflect d n) n = d
    /\ dot (reflect d n) (normalize n) = - dot d (normalize n)
    /\ norm (reflect d n) = norm d.
Proof.
  intros d n. split; [apply reflect_involutive |].
  split; [apply reflect_dot | apply reflect_norm_any].
Qed.

(** X10.  In exact arithmetic [reflect] only depends on the line of the
    normal: a normal scaled by any [k <> 0], negative ones included, gives
    the same reflection. *)
Theorem reflect_normal_up_to_scale :
  forall (d n : Vector2 R) (k : R),
    k <> 0 -> reflect d (scale k n) = reflect d n.
Proof.
  intros d n k Hk. apply reflect_normal_scale, Hk.
Qed.

(** The normal [(0,1)] turned round and doubled. *)
Lemma reflect_normal_up_to_scale_witness :
  reflect (vec 1 1) (scale (-2) (vec 0 1))
  = reflect (vec 1 1) (vec 0 1 : Vector2 R).
Proof.
  apply reflect_normal_up_to_scale. lra.
Defined.



End RealPhysics.

(* ================================================================== *)
(** ** Scene editing *)

Section EditingFacts.
Variables Math_cos Math_sin : float -> float.
Variable Math_atan2 : float -> float -> float.
Local Open Scope float_scope.

Lemma movedTo_identity (i : string) (pos : Vector2 float)
  (objs : list OpticObject) :
  map identity (movedTo i pos objs) = map identity objs.
Proof.
  unfold movedTo. rewrite map_map. apply map_ext. intros o.
  destruct (String.eqb (id o) i); reflexivity.
Qed.

Lemma rotatedTo_identity (i : string) (newRot : float)
  (objs : list OpticObject) :
  map identity (rotatedTo i newRot objs) = map identity objs.
Proof.
  unfold rotatedTo. rewrite map_map. apply map_ext. intros o.
  destruct (String.eqb (id o) i); reflexivity.
Qed.

Lemma movedTo_twice (i : string) (p q : Vector2 float)
  (objs : list OpticObject) :
  movedTo i p (movedTo i q objs) = movedTo i p objs.
Proof.
  unfold movedTo. rewrite map_map. apply map_ext. intros o.
  destruct (String.eqb (id o) i) eqn:E; cbn [id]; rewrite E; reflexivity.
Qed.

Lemma movedTo_commute (i j : string) (p q : Vector2 float)
  (objs : list OpticObject) :
  i <> j ->
  movedTo i p (movedTo j q objs) = movedTo j q (movedTo i p objs).
Proof.
  intros Hij. unfold movedTo. rewrite !map_map. apply map_ext. intros o.
  destruct (String.eqb (id o) i) eqn:Ei, (String.eqb (id o) j) eqn:Ej;
    cbn [id]; rewrite ?Ei, ?Ej; try reflexivity.
  apply String.eqb_eq in Ei, Ej. congruence.
Qed.

Lemma movedTo_absent (i : string) (pos : Vector2 float)
  (objs : list OpticObject) :
  (forall o, In o objs -> id o <> i) -> movedTo i pos objs = objs.
Proof.
  intros Habs. unfold movedTo. rewrite <- (map_id objs) at 2.
  apply map_ext_in. intros o Hin.
  destruct (String.eqb (id o) i) eqn:E; [| reflexivity].
  apply String.eqb_eq in E. destruct (Habs o Hin E).
Qed.

Lemma movedTo_nth (i : string) (pos : Vector2 float)
  (objs : list OpticObject) (k : nat) (o : OpticObject) :
  nth_error objs k = Some o ->
  nth_error (movedTo i pos objs) k
  = Some (if String.eqb (id o) i
          then {| id := id o; type := type o; position := pos;
                  rotation := rotation o; size := size o |}
          else o).
Proof.
  intros Hk. unfold movedTo. rewrite nth_error_map, Hk. reflexivity.
Qed.

(** The target the effect finds keeps its kind under an edit that keeps
    the kinds. *)
Lemma find_isTarget_map (f : OpticObject -> OpticObject)
  (objs : list OpticObject) :
  (forall o, type (f o) = type o) ->
  find isTarget (map f objs) = option_map f (find isTarget objs).
Proof.
  intros Hty. induction objs as [| o objs IH]; [reflexivity |]. cbn.
  unfold isTarget at 1 3. rewrite Hty.
  destruct (ObjType_eqb (type o) Target); [reflexivity | exact IH].
Qed.

Lemma solvedEffect_prev (objs : list OpticObject) (b1 b2 : bool) :
  (find isTarget objs = None -> b1 = b2) ->
  solvedEffect Math_cos Math_sin objs b1
  = solvedEffect Math_cos Math_sin objs b2.
Proof.
  unfold solvedEffect. destruct (find isTarget objs); auto.
Qed.

Lemma movedTo_type (i : string) (pos : Vector2 float) (o : OpticObject) :
  type (if String.eqb (id o) i
        then {| id := id o; type := type o; position := pos;
                rotation := rotation o; size := size o |}
        else o) = type o.
Proof. destruct (String.eqb (id o) i); reflexivity. Qed.

Lemma solvedEffect_movedTo_none (i : string) (pos : Vector2 float)
  (objs : list OpticObject) (b : bool) :
  find isTarget (movedTo i pos objs) = None ->
  solvedEffect Math_cos Math_sin (movedTo i pos objs) b = b.
Proof. intros H. unfold solvedEffect. rewrite H. reflexivity. Qed.

Lemma find_isTarget_movedTo_none (i : string) (p : Vector2 float)
  (objs : list OpticObject) :
  find isTarget (movedTo i p objs) = None <-> find isTarget objs = None.
Proof.
  unfold movedTo.
  rewrite find_isTarget_map by (intros o; apply movedTo_type).
  destruct (find isTarget objs); split; intros H;
    try discriminate; reflexivity.
Qed.

(** X12.  [updatePosition] is a keyed update: it keeps the number and
    order of the objects and their ids, types and sizes; afterwards the
    object at each place is the old one, at the new position when its id
    is the given one and untouched otherwise; an id that no object has
    changes nothing in the scene; a second update of the same id
    overrides the first, and updates of different ids commute. *)
Theorem updatePosition_keyed_update :
  forall (i : string) (pos : Vector2 float) (st : AppState),
    map identity (objects (updatePosition Math_cos Math_sin i pos st))
    = map identity (objects st)
    /\ (forall (k : nat) (o : OpticObject),
          nth_error (objects st) k = Some o ->
          exists o',
            nth_error (objects (updatePosition Math_cos Math_sin i pos st)) k
            = Some o'
            /\ rotation o' = rotation o
            /\ (id o = i -> position o' = pos)
            /\ (id o <> i -> o' = o))
    /\ ((forall o, In o (objects st) -> id o <> i) ->
        objects (updatePosition Math_cos Math_sin i pos st) = objects st)
    /\ (forall q : Vector2 float,
          updatePosition Math_cos Math_sin i pos
            (updatePosition Math_cos Math_sin i q st)
          = updatePosition Math_cos Math_sin i pos st)
    /\ (forall (j : string) (q : Vector2 float),
          i <> j ->
          updatePosition Math_cos Math_sin i pos
            (updatePosition Math_cos Math_sin j q st)
          = updatePosition Math_cos Math_sin j q
              (updatePosition Math_cos Math_sin i pos st)).
Proof.
  intros i pos st. unfold updatePosition, setObjects; cbn [objects solved].
  split; [apply movedTo_identity |].
  split; [| split; [apply movedTo_absent | split]].
  - intros k o Hk. eexists. split; [apply movedTo_nth, Hk |].
    destruct (String.eqb (id o) i) eqn:E.
    + apply String.eqb_eq in E. repeat split; auto. intros H; contradiction.
    + apply String.eqb_neq in E. repeat split; auto. intros H; contradiction.
  - intros q. rewrite movedTo_twice. f_equal.
    apply solvedEffect_prev. intros Hnone.
    apply solvedEffect_movedTo_none.
    apply find_isTarget_movedTo_none.
    apply (find_isTarget_movedTo_none i pos). exact Hnone.
  - intros j q Hij. rewrite (movedTo_commute i j pos q _ Hij). f_equal.
    apply solvedEffect_prev. intros Hnone.
    apply find_isTarget_movedTo_none in Hnone.
    apply find_isTarget_movedTo_none in Hnone.
    rewrite !solvedEffect_movedTo_none;
      [reflexivity | |]; apply find_isTarget_movedTo_none; exact Hnone.
Qed.

End EditingFacts.

Section RaysUnderEdits.
Variables Math_cos Math_sin : float -> float.
Local Open Scope float_scope.

Lemma filter_map_commute (A : Type) (p : A -> bool) (f : A -> A)
  (l : list A) :
  (forall a, In a l -> p (f a) = p a) ->
  filter p (map f l) = map f (filter p l).
Proof.
  induction l as [| a l IH]; intros Hp; [reflexivity |]. cbn.
  rewrite (Hp a (or_introl eq_refl)), IH
    by (intros b Hb; apply Hp; right; exact Hb).
  destruct (p a); reflexivity.
Qed.

Lemma flat_map_ext_in_local (A B : Type) (f g : A -> list B) (l : list A) :
  (forall a, In a l -> f a = g a) -> flat_map f l = flat_map g l.
Proof.
  induction l as [| a l IH]; intros H; [reflexivity |]. cbn.
  rewrite (H a (or_introl eq_refl)), IH
    by (intros b Hb; apply H; right; exact Hb).
  reflexivity.
Qed.

Lemma fold_left_map_ext (A B : Type) (step : B -> A -> B) (f : A -> A)
  (l : list A) (b : B) :
  (forall a n, In a l -> step n (f a) = step n a) ->
  fold_left step (map f l) b = fold_left step l b.
Proof.
  revert b. induction l as [| a l IH]; intros b Hf; [reflexivity |]. cbn.
  rewrite (Hf a b (or_introl eq_refl)).
  apply IH. intros a' n Hin. apply Hf. right. exact Hin.
Qed.

(** The prism pass reads the position and the size of an obstacle. *)
Lemma prismStep_reads (origin dir : Vector2 float) (near : Nearest)
  (o o' : OpticObject) :
  position o' = position o -> size o' = size o ->
  prismStep origin dir near o' = prismStep origin dir near o.
Proof.
  intros Hpos Hsize.
  unfold prismStep, prismRoot, smallerRoot, largerRoot, prism_disc,
    prism_b, prism_c.
  rewrite Hpos, Hsize. reflexivity.
Qed.

(** An edit that keeps ids and types, leaves the mirrors of the mirror
    pass alone and keeps position and size of the prisms does not change
    what an iteration finds. *)
Lemma findHit_edit (f : OpticObject -> OpticObject)
  (objs : list OpticObject) (origin dir : Vector2 float) :
  (forall o, In o objs -> id (f o) = id o /\ type (f o) = type o) ->
  (forall o, In o objs -> isMirror o = true -> f o = o) ->
  (forall o, In o objs -> isPrism o = true ->
             position (f o) = position o /\ size (f o) = size o) ->
  findHit Math_cos Math_sin (map f objs) origin dir
  = findHit Math_cos Math_sin objs origin dir.
Proof.
  intros Hkeep Hmirror Hprism. unfold findHit.
  assert (Hm : forall o, In o objs -> isMirror (f o) = isMirror o).
  { intros o Hin. destruct (Hkeep o Hin) as [Hid Hty].
    unfold isMirror. rewrite Hid, Hty. reflexivity. }
  assert (Hp : forall o, In o objs -> isPrism (f o) = isPrism o).
  { intros o Hin. destruct (Hkeep o Hin) as [_ Hty].
    unfold isPrism. rewrite Hty. reflexivity. }
  rewrite !filter_map_commute by assumption.
  rewrite (fold_left_map_ext _ _ (mirrorStep Math_cos Math_sin origin dir)).
  - apply fold_left_map_ext. intros o n Hin.
    apply filter_In in Hin. destruct Hin as [Hin Hty].
    destruct (Hprism o Hin Hty) as [Hpos Hsize].
    apply prismStep_reads; assumption.
  - intros o n Hin. apply filter_In in Hin. destruct Hin as [Hin Hty].
    rewrite (Hmirror o Hin Hty). reflexivity.
Qed.

Lemma bounceLoop_same_hits (fuel : nat) (objs1 objs2 : list OpticObject)
  (colorIndex : nat) (st : TraceState) :
  (forall origin dir,
      findHit Math_cos Math_sin objs1 origin dir
      = findHit Math_cos Math_sin objs2 origin dir) ->
  bounceLoop Math_cos Math_sin fuel objs1 colorIndex st
  = bounceLoop Math_cos Math_sin fuel objs2 colorIndex st.
Proof.
  intros Hsame. revert st.
  induction fuel as [| fuel IH]; intros st; [reflexivity |].
  rewrite !bounceLoop_S.
  assert (Hstep : bounceStep Math_cos Math_sin objs1 colorIndex st
                  = bounceStep Math_cos Math_sin objs2 colorIndex st)
    by (unfold bounceStep; rewrite Hsame; reflexivity).
  rewrite Hstep.
  destruct (bounceStep Math_cos Math_sin objs2 colorIndex st) as [st' | st'];
    [rewrite IH |]; reflexivity.
Qed.

(** Such an edit, when it also keeps the positions of the lights, does
    not change the rays. *)
Lemma computeRays_edit (f : OpticObject -> OpticObject)
  (objs : list OpticObject) :
  (forall o, In o objs -> id (f o) = id o /\ type (f o) = type o) ->
  (forall o, In o objs -> isMirror o = true -> f o = o) ->
  (forall o, In o objs -> isPrism o = true ->
             position (f o) = position o /\ size (f o) = size o) ->
  (forall o, In o objs -> isLight o = true -> position (f o) = position o) ->
  computeRays Math_cos Math_sin (map f objs)
  = computeRays Math_cos Math_sin objs.
Proof.
  intros Hkeep Hmirror Hprism Hlight. unfold computeRays.
  rewrite filter_map_commute.
  2:{ intros o Hin. destruct (Hkeep o Hin) as [_ Hty].
      unfold isLight. rewrite Hty. reflexivity. }
  rewrite flat_map_concat_map, map_map, <- flat_map_concat_map.
  apply flat_map_ext_in_local.
  intros lt Hin. apply filter_In in Hin. destruct Hin as [Hin Hty].
  rewrite (Hlight lt Hin Hty).
  apply flat_map_ext. intros index. unfold traceRay.
  rewrite (bounceLoop_same_hits maxBounces (map f objs) objs); [reflexivity |].
  intros origin dir. apply findHit_edit; assumption.
Qed.

End RaysUnderEdits.

Section EditingProperties.
Local Open Scope float_scope.

(** The starting scene; nobody has the id ["nobody"]. *)
Lemma updatePosition_keyed_update_witness :
  objects (updatePosition Examples.hostCos Examples.hostSin "nobody"
             (vec 0 0) {| objects := Examples.puzzle1; solved := false |})
  = Examples.puzzle1.
Proof.
  apply (proj1 (proj2 (proj2
           (updatePosition_keyed_update Examples.hostCos Examples.hostSin
              "nobody" (vec 0 0)
              {| objects := Examples.puzzle1; solved := false |})))).
  intros o [<- | [<- | []]]; discriminate.
Defined.

(** X13.  The rotation of an object is read for the mirrors of the mirror
    pass only: setting the rotation of every object with a given id, none
    of which is such a mirror (lights, targets, prisms), changes no trace
    and no ray. *)
Theorem rays_ignore_rotation_of_non_mirrors :
  forall (Math_cos Math_sin : float -> float) (i : string) (newRot : float)
         (objs : list OpticObject),
    (forall o, In o objs -> id o = i -> isMirror o = false) ->
    (forall (initialOrigin initialDir : Vector2 float) (colorIndex : nat),
        traceRay Math_cos Math_sin initialOrigin initialDir colorIndex
          (rotatedTo i newRot objs)
        = traceRay Math_cos Math_sin initialOrigin initialDir colorIndex objs)
    /\ computeRays Math_cos Math_sin (rotatedTo i newRot objs)
       = computeRays Math_cos Math_sin objs.
Proof.
  intros Math_cos Math_sin i newRot objs Hnot.
  set (f := fun o : OpticObject =>
              if String.eqb (id o) i
              then {| id := id o; type := type o; position := position o;
                      rotation := newRot; size := size o |}
              else o).
  assert (Hkeep : forall o, In o objs ->
                            id (f o) = id o /\ type (f o) = type o)
    by (intros o _; unfold f; destruct (String.eqb (id o) i); auto).
  assert (Hmirror : forall o, In o objs -> isMirror o = true -> f o = o).
  { intros o Hin Hm. unfold f.
    destruct (String.eqb (id o) i) eqn:E; [| reflexivity].
    apply String.eqb_eq in E. rewrite (Hnot o Hin E) in Hm. discriminate. }
  assert (Hpos : forall o, position (f o) = position o /\ size (f o) = size o)
    by (intros o; unfold f; destruct (String.eqb (id o) i); auto).
  split.
  - intros initialOrigin initialDir colorIndex. unfold traceRay.
    rewrite (bounceLoop_same_hits Math_cos Math_sin maxBounces
               (rotatedTo i newRot objs) objs); [reflexivity |].
    intros origin dir. apply (findHit_edit Math_cos Math_sin f); auto.
  - apply (computeRays_edit Math_cos Math_sin f); auto.
    intros o _ _. apply Hpos.
Qed.

(** Turning the light of the starting scene. *)
Lemma rays_ignore_rotation_of_non_mirrors_witness :
  computeRays Examples.hostCos Examples.hostSin
    (rotatedTo "light1" 1.5 Examples.puzzle1)
  = computeRays Examples.hostCos Examples.hostSin Examples.puzzle1.
Proof.
  apply (rays_ignore_rotation_of_non_mirrors Examples.hostCos
           Examples.hostSin "light1" 1.5 Examples.puzzle1).
  intros o [<- | [<- | []]] _; reflexivity.
Defined.

(** X14.  Moving every object with a given id, none of which is a light
    or takes part in tracing (a target, for one), changes no ray: only the
    solved test can change. *)
Theorem rays_ignore_moves_of_non_optical :
  forall (Math_cos Math_sin : float -> float) (i : string)
         (pos : Vector2 float) (objs : list OpticObject),
    (forall o, In o objs -> id o = i ->
               participates o = false /\ isLight o = false) ->
    computeRays Math_cos Math_sin (movedTo i pos objs)
    = computeRays Math_cos Math_sin objs.
Proof.
  intros Math_cos Math_sin i pos objs Hnot.
  set (f := fun o : OpticObject =>
              if String.eqb (id o) i
              then {| id := id o; type := type o; position := pos;
                      rotation := rotation o; size := size o |}
              else o).
  assert (Hsame : forall o (p : OpticObject -> bool),
             In o objs -> p o = true ->
             (forall o', participates o' = false /\ isLight o' = false ->
                         p o' = false) ->
             f o = o).
  { intros o p Hin Hp Hexcl. unfold f.
    destruct (String.eqb (id o) i) eqn:E; [| reflexivity].
    apply String.eqb_eq in E.
    rewrite (Hexcl o (Hnot o Hin E)) in Hp. discriminate. }
  apply (computeRays_edit Math_cos Math_sin f).
  - intros o _. unfold f. destruct (String.eqb (id o) i); auto.
  - intros o Hin Hm. apply (Hsame o isMirror Hin Hm).
    intros o' [Hp _]. unfold participates in Hp.
    apply orb_false_iff in Hp. apply Hp.
  - intros o Hin Hp. rewrite (Hsame o isPrism Hin Hp); [auto |].
    intros o' [Hp' _]. unfold participates in Hp'.
    apply orb_false_iff in Hp'. apply Hp'.
  - intros o Hin Hl. rewrite (Hsame o isLight Hin Hl); [auto |].
    intros o' [_ Hl']. exact Hl'.
Qed.

(** Moving the target of the starting scene. *)
Lemma rays_ignore_moves_of_non_optical_witness :
  computeRays Examples.hostCos Examples.hostSin
    (movedTo "target1" (vec 1100 300) Examples.puzzle1)
  = computeRays Examples.hostCos Examples.hostSin Examples.puzzle1.
Proof.
  apply (rays_ignore_moves_of_non_optical Examples.hostCos Examples.hostSin
           "target1" (vec 1100 300) Examples.puzzle1).
  intros o [<- | [<- | []]] E; [discriminate | split; reflexivity].
Defined.

End EditingProperties.

Section Gestures.
Variables Math_cos Math_sin : float -> float.
Variable Math_atan2 : float -> float -> float.
Local Open Scope float_scope.

Lemma selected_some (s : string) : s <> ""%string -> selected (Some s) = Some s.
Proof.
  intros Hs. unfold selected.
  destruct (String.eqb s "") eqn:E; [| reflexivity].
  apply String.eqb_eq in E. contradiction.
Qed.

(** X15.  A drag: pressing the button without shift where an object is in
    reach grabs the first such object of the list by its id; the next
    mouse move puts every object with that id at the mouse position and
    leaves the rest of the scene as it is; releasing the button drops the
    grab, and mouse moves after that change neither scene nor flag. *)
Theorem drag_moves_the_grabbed_object :
  forall (ui : Ui) (mx0 my0 mx my : float) (obj : OpticObject),
    find (inReach mx0 my0) (objects (appState ui)) = Some obj ->
    id obj <> ""%string ->
    let pressed := handleMouseDown mx0 my0 false ui in
    let moved :=
      handleMouseMove Math_cos Math_sin Math_atan2 mx my pressed in
    let released := handleMouseUp moved in
    inReach mx0 my0 obj = true
    /\ In obj (objects (appState ui))
    /\ appState pressed = appState ui
    /\ dragging pressed = Some (id obj)
    /\ objects (appState moved)
       = movedTo (id obj) (vec mx my) (objects (appState ui))
    /\ dragging released = None /\ rotating released = None
    /\ (forall mx' my' : float,
          appState (handleMouseMove Math_cos Math_sin Math_atan2 mx' my'
                      released)
          = appState released).
Proof.
  intros ui mx0 my0 mx my obj Hfind Hid. cbn zeta.
  destruct (find_some _ _ Hfind) as [Hin Hreach].
  unfold handleMouseDown. rewrite Hfind.
  unfold handleMouseMove; cbn [dragging rotating appState mousePos].
  rewrite (selected_some _ Hid).
  repeat split; auto.
Qed.

End Gestures.

Section GestureExamples.
Local Open Scope float_scope.

(** Grabbing the light of the starting scene at its centre and moving
    it to (150, 250); [Math.atan2] is not called on the way. *)
Lemma drag_moves_the_grabbed_object_witness :
  objects (appState
             (handleMouseMove Examples.hostCos Examples.hostSin
                (fun _ _ => nan) 150 250
                (handleMouseDown 100 300 false
                   (initialUi Examples.hostCos Examples.hostSin))))
  = movedTo "light1" (vec 150 250) Examples.puzzle1.
Proof.
  refine (proj1 (proj2 (proj2 (proj2 (proj2
            (drag_moves_the_grabbed_object Examples.hostCos Examples.hostSin
               (fun _ _ => nan)
               (initialUi Examples.hostCos Examples.hostSin)
               100 300 150 250 Examples.light1 eq_refl _)))))).
  discriminate.
Defined.

End GestureExamples.

Section ReachableStates.
Variables Math_cos Math_sin : float -> float.
Variable Math_atan2 : float -> float -> float.
Local Open Scope float_scope.

Lemma find_hd_filter (A : Type) (p : A -> bool) (l : list A) :
  find p l = hd_error (filter p l).
Proof.
  induction l as [| a l IH]; [reflexivity |]. cbn.
  destruct (p a); [reflexivity | exact IH].
Qed.

(** One light ["light1"] and one target ["target1"], of the sizes they
    start with. *)
Definition oneLightOneTarget (objs : list OpticObject) : Prop :=
  map identity (filter isLight objs) = [("light1"%string, Light, 20)]
  /\ map identity (filter isTarget objs) = [("target1"%string, Target, 30)].

Lemma oneLightOneTarget_edit (f : OpticObject -> OpticObject)
  (objs : list OpticObject) :
  (forall o, identity (f o) = identity o) ->
  oneLightOneTarget objs -> oneLightOneTarget (map f objs).
Proof.
  intros Hf [Hl Ht].
  assert (Hty : forall o, type (f o) = type o).
  { intros o. specialize (Hf o). unfold identity in Hf. congruence. }
  unfold oneLightOneTarget.
  rewrite !filter_map_commute, !map_map.
  - rewrite (map_ext _ identity Hf), (map_ext _ identity Hf). auto.
  - intros o _. unfold isTarget. rewrite Hty. reflexivity.
  - intros o _. unfold isLight. rewrite Hty. reflexivity.
Qed.

Lemma oneLightOneTarget_add (now : string) (ty : Addable)
  (objs : list OpticObject) :
  oneLightOneTarget objs -> oneLightOneTarget (objs ++ [newObject now ty]).
Proof.
  intros [Hl Ht]. unfold oneLightOneTarget.
  rewrite !filter_app.
  destruct ty; cbn [filter newObject isLight isTarget type addableType
                    ObjType_eqb]; rewrite !app_nil_r; auto.
Qed.

Lemma oneLightOneTarget_target (objs : list OpticObject) :
  oneLightOneTarget objs ->
  exists target, find isTarget objs = Some target
                 /\ id target = "target1"%string /\ size target = 30.
Proof.
  intros [_ Ht]. rewrite find_hd_filter.
  destruct (filter isTarget objs) as [| t rest]; [discriminate |].
  exists t. cbn in Ht |- *. unfold identity in Ht.
  injection Ht as Hid _ Hsize _. auto.
Qed.

(** The scene has its light and its target, and the flag is what the
    effect computes from the scene. *)
Definition consistent (a : AppState) : Prop :=
  oneLightOneTarget (objects a)
  /\ exists target,
       find isTarget (objects a) = Some target
       /\ solved a
          = existsb (reaches target)
              (computeRays Math_cos Math_sin (objects a)).

Lemma setObjects_consistent (objs : list OpticObject) (a : AppState) :
  oneLightOneTarget objs -> consistent (setObjects Math_cos Math_sin objs a).
Proof.
  intros Hone. split; [exact Hone |].
  destruct (oneLightOneTarget_target objs Hone) as (target & Hfind & _).
  exists target. split; [exact Hfind |].
  unfold setObjects, solvedEffect; cbn [objects solved].
  rewrite Hfind. reflexivity.
Qed.

Lemma initialObjects_oneLightOneTarget : oneLightOneTarget initialObjects.
Proof. split; reflexivity. Qed.

Lemma handle_consistent (ui : Ui) (e : Event) :
  consistent (appState ui) ->
  consistent (appState (handle Math_cos Math_sin Math_atan2 ui e)).
Proof.
  intros Hc. pose proof Hc as [Hone _].
  destruct e as [mx my shiftKey | mx my | | now ty |]; cbn [handle].
  - unfold handleMouseDown.
    destruct (find _ _); [destruct shiftKey |]; exact Hc.
  - unfold handleMouseMove; cbn [appState].
    destruct (selected (dragging ui)) as [d |].
    + apply setObjects_consistent.
      apply oneLightOneTarget_edit; [| exact Hone].
      intros o. destruct (String.eqb (id o) d); reflexivity.
    + destruct (selected (rotating ui)) as [r |]; [| exact Hc].
      destruct (find _ _) as [pivot |]; [| exact Hc].
      apply setObjects_consistent.
      apply oneLightOneTarget_edit; [| exact Hone].
      intros o'. destruct (String.eqb (id o') r); reflexivity.
  - exact Hc.
  - cbn [appState]. apply setObjects_consistent.
    apply oneLightOneTarget_add, Hone.
  - cbn [appState]. apply setObjects_consistent.
    exact initialObjects_oneLightOneTarget.
Qed.

Lemma runEvents_consistent (events : list Event) (ui : Ui) :
  consistent (appState ui) ->
  consistent (appState (runEvents Math_cos Math_sin Math_atan2 events ui)).
Proof.
  revert ui. unfold runEvents.
  induction events as [| e events IH]; intros ui Hc; [exact Hc |].
  cbn [fold_left]. apply IH, handle_consistent, Hc.
Qed.

End ReachableStates.

(** X16.  In every state the App reaches from its first render by mouse
    presses, moves and releases, by adding prisms and mirrors and by the
    "Puzzle 1" button: the scene holds exactly one light, ["light1"] of
    size 20, and exactly one target, ["target1"] of size 30; the solved
    flag is the test of lines 217-221 on the rays of the current scene;
    and between 7 and 70 segments are computed. *)
Theorem reachable_states_are_consistent :
  forall (Math_cos Math_sin : float -> float)
         (Math_atan2 : float -> float -> float) (events : list Event),
    let ui := runEvents Math_cos Math_sin Math_atan2 events
                (initialUi Math_cos Math_sin) in
    let objs := objects (appState ui) in
    map identity (filter isLight objs) = [("light1"%string, Light, 20%float)]
    /\ map identity (filter isTarget objs)
       = [("target1"%string, Target, 30%float)]
    /\ (exists target,
          find isTarget objs = Some target
          /\ solved (appState ui)
             = existsb (reaches target) (computeRays Math_cos Math_sin objs))
    /\ (7 <= List.length (computeRays Math_cos Math_sin objs) <= 70)%nat.
Proof.
  intros Math_cos Math_sin Math_atan2 events. cbn zeta.
  assert (Hinit : consistent Math_cos Math_sin
                    (appState (initialUi Math_cos Math_sin)))
    by (apply setObjects_consistent, initialObjects_oneLightOneTarget).
  destruct (runEvents_consistent Math_cos Math_sin Math_atan2 events _ Hinit)
    as [[Hl Ht] Hsolved].
  split; [exact Hl |]. split; [exact Ht |]. split; [exact Hsolved |].
  pose proof (computeRays_length Math_cos Math_sin
                (objects (appState (runEvents Math_cos Math_sin Math_atan2
                                      events (initialUi Math_cos Math_sin)))))
    as Hlen.
  cbn zeta in Hlen.
  assert (Hone : List.length
                   (filter isLight
                      (objects (appState
                         (runEvents Math_cos Math_sin Math_atan2 events
                            (initialUi Math_cos Math_sin))))) = 1%nat).
  { rewrite <- (length_map identity), Hl. reflexivity. }
  rewrite Hone in Hlen. lia.
Qed.

(* ================================================================== *)
(** ** Geometric primitives in exact arithmetic *)

Section ExactGeometry.
Local Open Scope R_scope.

(** On binary64 the expressions over scalars are the ones of the tracer. *)
Lemma geometry_on_binary64 :
  (forall (Math_cos Math_sin : float -> float) (v : Vector2 float)
          (a : float),
      rotate Math_cos Math_sin v a = rotateBy (Math_cos a) (Math_sin a) v)
  /\ (forall (Math_cos Math_sin : float -> float) (obj : OpticObject),
        (seg_p1 (getMirrorSegment Math_cos Math_sin obj),
         seg_p2 (getMirrorSegment Math_cos Math_sin obj),
         seg_normal (getMirrorSegment Math_cos Math_sin obj))
        = mirrorSegmentBy (Math_cos (rotation obj)) (Math_sin (rotation obj))
            (position obj) (size obj))
  /\ (forall origin dir p1 p2 : Vector2 float,
        li_denom dir p1 p2 = lineDenom dir p1 p2
        /\ li_t origin dir p1 p2 = lineT origin dir p1 p2
        /\ li_u origin dir p1 p2 = lineU origin dir p1 p2)
  /\ (forall (origin dir : Vector2 float) (obj : OpticObject),
        prismCandidate origin dir obj
        = prismCandidateOf 4%float 0.01%float origin dir (position obj)
            (size obj)).
Proof. repeat split; reflexivity. Qed.

Lemma mirror_geometry (theta : R) (position : Vector2 R) (size : R) :
  let '(p1, p2, n) :=
    mirrorSegmentBy (cos theta) (sin theta) position size in
  add p1 p2 = scale 2 position
  /\ sub p2 p1 = scale size (vec (cos theta) (sin theta))
  /\ dot (sub p2 p1) (sub p2 p1) = size * size
  /\ n = vec (- sin theta) (cos theta)
  /\ norm n = 1
  /\ dot n (sub p2 p1) = 0.
Proof.
  unfold mirrorSegmentBy, rotateBy, add, sub, scale, dot, norm;
    cbn -[IZR cos sin].
  pose proof (sin2_cos2 theta) as Htrig. unfold Rsqr in Htrig.
  split; [f_equal; field |]. split; [f_equal; field |].
  split.
  { transitivity (size * size
                  * (sin theta * sin theta + cos theta * cos theta));
      [field | rewrite Htrig; ring]. }
  split; [f_equal; ring |]. split; [| field].
  transitivity (sqrt 1); [f_equal | apply sqrt_1].
  transitivity (sin theta * sin theta + cos theta * cos theta);
    [ring | exact Htrig].
Qed.

Lemma line_system (origin dir p1 p2 : Vector2 R) :
  lineDenom dir p1 p2 <> 0 ->
  let t := lineT origin dir p1 p2 in
  let u := lineU origin dir p1 p2 in
  sub origin (scale t dir) = sub p1 (scale u (sub p2 p1))
  /\ add origin (scale t dir)
     = sub (scale 2 origin) (sub p1 (scale u (sub p2 p1))).
Proof.
  intros Hd. cbn zeta. unfold lineT, lineU.
  revert Hd. unfold lineDenom, add, sub, scale; cbn -[IZR].
  destruct origin as [ox oy], dir as [dx dy], p1 as [ax ay], p2 as [bx b_y];
    cbn -[IZR]. intros Hd.
  split; f_equal; field; exact Hd.
Qed.

Lemma prism_core (b c s t1 t2 t e : R) :
  0 < e -> 0 <= s -> s * s = b * b - 4 * c ->
  t1 = (- b - s) / 2 -> t2 = (- b + s) / 2 ->
  (t = t1 /\ ~ t1 < e) \/ (t = t2 /\ t1 < e) ->
  e < t -> t - b / 2 < 0 -> c < 0.
Proof.
  intros He Hs Hss H1 H2 [[-> Hge] | [-> Hlt]] Het Hout.
  - subst t1. lra.
  - subst t1 t2. assert (Hb : 0 < b) by lra. assert (Hsb : b < s) by lra.
    assert (Hsq : b * b < s * s) by nra. lra.
Qed.

Lemma dot_normalize_neg (d w : Vector2 R) :
  dot d (normalize w) < 0 -> dot d w < 0.
Proof.
  rewrite normalize_real.
  destruct (Rlt_dec 0 (norm w)) as [Hpos | Hnot].
  - unfold dot; cbn -[norm]. intros H.
    assert (E : x d * (x w / norm w) + y d * (y w / norm w)
                = (x d * x w + y d * y w) / norm w) by (field; lra).
    rewrite E in H.
    apply (Rmult_lt_compat_r (norm w)) in H; [| exact Hpos].
    unfold Rdiv in H. rewrite Rmult_assoc, Rinv_l, Rmult_1_r, Rmult_0_l in H
      by lra. exact H.
  - unfold dot; cbn. lra.
Qed.

Lemma prism_inside (origin v center : Vector2 R) (size t : R) :
  prismCandidateOf 4 0.01 origin (normalize v) center size = Some t ->
  dot (sub center origin) (sub center origin) < (size / 2) * (size / 2).
Proof.
  unfold prismCandidateOf, rootOf.
  set (d := normalize v).
  set (disc := discOf 4 origin d center size).
  set (b := s_mul s_two (dot (sub center origin) d)).
  set (t1 := s_div (s_sub (s_opp b) (s_sqrt disc)) (s_mul s_two s_one)).
  set (t2 := s_div (s_add (s_opp b) (s_sqrt disc)) (s_mul s_two s_one)).
  cbn [s_ltb s_zero real_scalar].
  set (t0 := if Rltb t1 0.01 then t2 else t1).
  unfold Rltb at 1.
  destruct (Rlt_dec disc 0) as [| Hdisc]; [discriminate |].
  unfold Rltb at 1.
  destruct (Rlt_dec 0.01 t0) as [Het |]; [| discriminate].
  unfold Rltb at 1.
  match goal with
  | |- context [Rlt_dec ?a 0] => destruct (Rlt_dec a 0) as [Hout |]
  end; [| discriminate].
  intros _.
  apply dot_normalize_neg in Hout.
  assert (Hs : 0 <= sqrt disc) by apply sqrt_pos.
  assert (Hss : sqrt disc * sqrt disc = disc) by (apply sqrt_sqrt; lra).
  set (c := dot (sub center origin) (sub center origin)
            - (size / 2) * (size / 2)).
  assert (Hdisc_eq : disc = b * b - 4 * c)
    by (unfold disc, discOf, b, c; cbn; ring).
  assert (Hd : dot d d = 1 \/ d = vec 0 0) by apply normalize_sqr.
  assert (Hdw : dot d (sub (add origin (scale t0 d)) center)
                = t0 * dot d d - b / 2).
  { unfold b, dot, sub, add, scale; cbn. field. }
  rewrite Hdw in Hout.
  destruct Hd as [Hd1 | Hd0].
  - rewrite Hd1, Rmult_1_r in Hout.
    assert (Hc : c < 0).
    { apply (prism_core b c (sqrt disc) t1 t2 t0 0.01); try lra.
      - unfold t1; cbn. field.
      - unfold t2; cbn. field.
      - unfold t0, Rltb. destruct (Rlt_dec t1 0.01); [right | left]; auto. }
    unfold c in Hc. lra.
  - exfalso. unfold b in Hout. rewrite Hd0 in Hout.
    unfold dot in Hout; cbn in Hout. lra.
Qed.


Lemma sqrt_10000 : sqrt 10000 = 100.
Proof. replace 10000 with (100 * 100) by ring. apply sqrt_square. lra. Qed.

Lemma norm_m10_0 : norm (vec (-10) 0 : Vector2 R) = 10.
Proof.
  unfold norm; cbn -[IZR].
  replace (-10 * -10 + 0 * 0) with (10 * 10) by ring.
  apply sqrt_square. lra.
Qed.

Lemma prism_example :
  prismCandidateOf 4 0.01 (vec 0 0) (normalize (vec 1 0)) (vec 30 0) 100
  = Some 20.
Proof.
  rewrite (normalize_unit _ norm_1_0).
  unfold prismCandidateOf, rootOf.
  assert (Hdisc : discOf 4 (vec 0 0) (vec 1 0) (vec 30 0) 100 = 10000)
    by (unfold discOf, dot, sub; cbn -[IZR]; field).
  rewrite !Hdisc. cbn [s_sqrt real_scalar]. rewrite sqrt_10000.
  assert (Hb : s_mul s_two
                 (dot (sub (vec 30 0) (vec 0 0)) (vec 1 0 : Vector2 R))
               = 60) by (unfold dot, sub; cbn -[IZR]; ring).
  rewrite !Hb.
  assert (H1 : s_div (s_sub (s_opp 60) 100) (s_mul s_two s_one) = -80)
    by (cbn -[IZR]; field).
  assert (H2 : s_div (s_add (s_opp 60) 100) (s_mul s_two s_one) = 20)
    by (cbn -[IZR]; field).
  rewrite !H1, !H2.
  cbn [s_ltb s_zero real_scalar]. unfold Rltb.
  destruct (Rlt_dec 10000 0); [lra |].
  destruct (Rlt_dec (-80) 0.01); [| lra].
  destruct (Rlt_dec 0.01 20); [| lra]. cbn [andb].
  assert (Hw : sub (add (vec 0 0) (scale 20 (vec 1 0))) (vec 30 0)
               = (vec (-10) 0 : Vector2 R))
    by (unfold sub, add, scale; cbn -[IZR]; f_equal; ring).
  rewrite Hw, normalize_real, norm_m10_0.
  destruct (Rlt_dec 0 10); [| lra].
  match goal with
  | |- context [Rlt_dec ?a 0] => destruct (Rlt_dec a 0) as [| Hn]
  end; [reflexivity |].
  exfalso. apply Hn. unfold dot; cbn -[IZR]. lra.
Qed.

End ExactGeometry.

Section ExactGeometryProperties.
Local Open Scope R_scope.

(** X17.  [getMirrorSegment] computes its end points and normal by the
    expressions [mirrorSegmentBy]; read in exact arithmetic with the
    cosine and sine of an angle [theta], the segment is centred at the
    position, runs along [(cos theta, sin theta)] with squared length
    [size^2], and the normal is the unit vector
    [(-sin theta, cos theta)], perpendicular to it. *)
Theorem mirror_segment_geometry :
  (forall (Math_cos Math_sin : float -> float) (obj : OpticObject),
      (seg_p1 (getMirrorSegment Math_cos Math_sin obj),
       seg_p2 (getMirrorSegment Math_cos Math_sin obj),
       seg_normal (getMirrorSegment Math_cos Math_sin obj))
      = mirrorSegmentBy (Math_cos (rotation obj)) (Math_sin (rotation obj))
          (position obj) (size obj))
  /\ (forall (theta : R) (position : Vector2 R) (size : R),
        let '(p1, p2, n) :=
          mirrorSegmentBy (cos theta) (sin theta) position size in
        add p1 p2 = scale 2 position
        /\ sub p2 p1 = scale size (vec (cos theta) (sin theta))
        /\ dot (sub p2 p1) (sub p2 p1) = size * size
        /\ n = vec (- sin theta) (cos theta)
        /\ norm n = 1
        /\ dot n (sub p2 p1) = 0).
Proof.
  split; [exact (proj1 (proj2 geometry_on_binary64)) | exact mirror_geometry].
Qed.

(** X18.  [lineIntersect] computes its determinant, [t] and [u] by the
    expressions [lineDenom], [lineT] and [lineU]; read in exact arithmetic
    with a non-zero determinant, they satisfy
    [origin - t*dir = p1 - u*(p2 - p1)]: the line of the ray meets the
    line of the segment at parameter [-t] of the ray and [-u] of the
    segment, and the point [origin + t*dir] that is returned is the mirror
    image of that meeting point through [origin]. *)
Theorem lineIntersect_parameters_in_exact_arithmetic :
  (forall origin dir p1 p2 : Vector2 float,
      li_denom dir p1 p2 = lineDenom dir p1 p2
      /\ li_t origin dir p1 p2 = lineT origin dir p1 p2
      /\ li_u origin dir p1 p2 = lineU origin dir p1 p2)
  /\ (forall origin dir p1 p2 : Vector2 R,
        lineDenom dir p1 p2 <> 0 ->
        let t := lineT origin dir p1 p2 in
        let u := lineU origin dir p1 p2 in
        sub origin (scale t dir) = sub p1 (scale u (sub p2 p1))
        /\ add origin (scale t dir)
           = sub (scale 2 origin) (sub p1 (scale u (sub p2 p1)))).
Proof.
  split; [exact (proj1 (proj2 (proj2 geometry_on_binary64))) |].
  exact line_system.
Qed.

(** A ray from the origin along [+x] and the segment from [(-2,-1)] to
    [(-2,1)] behind it, met at [(-2,0)]: [lineT] is [2], [lineU] is
    [-1/2], and [origin + t*dir] is [(2,0)]. *)
Lemma lineIntersect_parameters_in_exact_arithmetic_witness :
  add (vec 0 0) (scale (lineT (vec 0 0) (vec 1 0) (vec (-2) (-1)) (vec (-2) 1))
                   (vec 1 0))
  = sub (scale 2 (vec 0 0))
        (sub (vec (-2) (-1))
           (scale (lineU (vec 0 0) (vec 1 0) (vec (-2) (-1)) (vec (-2) 1))
              (sub (vec (-2) 1) (vec (-2) (-1) : Vector2 R)))).
Proof.
  apply (proj2 lineIntersect_parameters_in_exact_arithmetic
           (vec 0 0) (vec 1 0) (vec (-2) (-1)) (vec (-2) 1)).
  unfold lineDenom; cbn -[IZR]. lra.
Defined.

(** X19.  The prism pass accepts a root by the expressions
    [prismCandidateOf]; read in exact arithmetic with a normalized
    direction, a prism is accepted only when the ray origin lies strictly
    inside its disc: [|center - origin|^2 < (size/2)^2]. *)
Theorem prism_hit_needs_origin_inside_disc :
  (forall (origin dir : Vector2 float) (obj : OpticObject),
      prismCandidate origin dir obj
      = prismCandidateOf 4%float 0.01%float origin dir (position obj)
          (size obj))
  /\ (forall (origin v center : Vector2 R) (size t : R),
        prismCandidateOf 4 0.01 origin (normalize v) center size = Some t ->
        dot (sub center origin) (sub center origin)
        < (size / 2) * (size / 2)).
Proof.
  split; [exact (proj2 (proj2 (proj2 geometry_on_binary64))) |].
  exact prism_inside.
Qed.

(** A ray that starts 30 units from the centre of a disc of radius 50
    and heads for the centre is accepted, at the root 20. *)
Lemma prism_hit_needs_origin_inside_disc_witness :
  prismCandidateOf 4 0.01 (vec 0 0) (normalize (vec 1 0)) (vec 30 0) 100
  = Some 20
  /\ dot (sub (vec 30 0) (vec 0 0)) (sub (vec 30 0) (vec 0 0 : Vector2 R))
     < (100 / 2) * (100 / 2).
Proof.
  split; [exact prism_example |].
  exact (proj2 prism_hit_needs_origin_inside_disc
           (vec 0 0) (vec 1 0) (vec 30 0) 100 20 prism_example).
Defined.

End ExactGeometryProperties.

Section RotationProperties.
Local Open Scope R_scope.

(** X20.  [rotate] computes [rotateBy] with the cosine and sine of the
    angle; read in exact arithmetic it is the rotation by that angle: the
    angle 0 changes nothing, rotating by [theta] and then by [phi] is
    rotating by [theta + phi], and lengths and dot products are
    preserved. *)
Theorem rotate_is_a_rotation :
  (forall (Math_cos Math_sin : float -> float) (v : Vector2 float)
          (a : float),
      rotate Math_cos Math_sin v a = rotateBy (Math_cos a) (Math_sin a) v)
  /\ (forall v : Vector2 R, rotateBy (cos 0) (sin 0) v = v)
  /\ (forall (theta phi : R) (v : Vector2 R),
        rotateBy (cos phi) (sin phi) (rotateBy (cos theta) (sin theta) v)
        = rotateBy (cos (theta + phi)) (sin (theta + phi)) v)
  /\ (forall (theta : R) (v w : Vector2 R),
        dot (rotateBy (cos theta) (sin theta) v)
            (rotateBy (cos theta) (sin theta) w) = dot v w)
  /\ (forall (theta : R) (v : Vector2 R),
        norm (rotateBy (cos theta) (sin theta) v) = norm v).
Proof.
  assert (Hdot : forall (theta : R) (v w : Vector2 R),
             dot (rotateBy (cos theta) (sin theta) v)
                 (rotateBy (cos theta) (sin theta) w) = dot v w).
  { intros theta v w. unfold dot, rotateBy; cbn -[cos sin].
    pose proof (sin2_cos2 theta) as Htrig. unfold Rsqr in Htrig.
    transitivity ((x v * x w + y v * y w)
                  * (sin theta * sin theta + cos theta * cos theta));
      [ring | rewrite Htrig; ring]. }
  split; [exact (proj1 geometry_on_binary64) |].
  split; [| split; [| split; [exact Hdot |]]].
  - intros [a b]. unfold rotateBy; cbn -[cos sin].
    rewrite cos_0, sin_0. f_equal; ring.
  - intros theta phi [a b]. unfold rotateBy; cbn -[cos sin].
    rewrite cos_plus, sin_plus. f_equal; ring.
  - intros theta v. specialize (Hdot theta v v).
    unfold norm, dot in *. cbn -[cos sin rotateBy] in *.
    f_equal. exact Hdot.
Qed.

End RotationProperties.
